(** * run_classifier.py: example sources and the feature pipeline

    A shallow embedding of the example-acquisition and feature-construction
    code of [run_classifier.py]: the cached-split example source
    ([SemevalProcessor]), the inference source's example ids
    ([SemevalOfficialProcessor._create_examples]), the n-gram augmentor
    ([permutation]), the pair truncator ([_truncate_seq_pair]), the feature
    assembler ([construct_features]) and the pooled converter
    ([convert_examples_to_features]).

    Python lists are [list]s, [str] is [string], [int] is [Z] (lengths and
    indices that are never negative are [nat]), [None]-able values are
    [option]s and the label dictionary is a [gmap].  The characters of a
    [string] are the code points 0 to 255, so the texts are those of that
    range.  Code that can raise returns an [outcome]. *)

From Stdlib Require Import ZArith Lia Ascii String.
From stdpp Require Import base list strings pretty functions gmap.

Set Default Proof Using "Type".

(** ** Outcomes of Python calls *)

Inductive exn : Type :=
  | IndexError
  | KeyError
  | AssertionError
  | NotImplementedError.

(** A call returns a value, raises, or runs for ever. *)
Inductive outcome (A : Type) : Type :=
  | Ret (a : A)
  | Raise (e : exn)
  | Diverge.

Arguments Ret {A} a.
Arguments Raise {A} e.
Arguments Diverge {A}.

Global Instance outcome_ret : MRet outcome := λ A, Ret.

Global Instance outcome_bind : MBind outcome := λ A B k m,
  match m with
  | Ret a => k a
  | Raise e => Raise e
  | Diverge => Diverge
  end.

(** [assert c] *)
Definition assert (c : bool) : outcome unit :=
  if c then Ret tt else Raise AssertionError.

(** ** Python sequence operations *)

Section sequences.
Context {A : Type}.

(** A slice bound [i] on a sequence of length [n]: a negative bound counts
    from the end, and every bound is clamped to [0 .. n]. *)
Definition slice_bound (n : nat) (i : Z) : nat :=
  if (i <? 0)%Z then Z.to_nat (Z.max 0 (i + Z.of_nat n))
  else Nat.min (Z.to_nat i) n.

(** [l[i:j]] *)
Definition py_slice (l : list A) (i j : Z) : list A :=
  let lo := slice_bound (length l) i in
  let hi := slice_bound (length l) j in
  take (hi - lo) (drop lo l).

(** [l[:j]] *)
Definition slice_to (l : list A) (j : Z) : list A := py_slice l 0 j.

(** [l[i:]] *)
Definition slice_from (l : list A) (i : Z) : list A :=
  py_slice l i (Z.of_nat (length l)).

(** [l.pop()]: the list without its last element; [IndexError] on the
    empty list. *)
Definition pop (l : list A) : outcome (list A) :=
  match l with
  | [] => Raise IndexError
  | _ :: _ => Ret (removelast l)
  end.

(** [l[i]] for [i >= 0] *)
Definition index (l : list A) (i : nat) : outcome A :=
  match l !! i with
  | Some x => Ret x
  | None => Raise IndexError
  end.
End sequences.

(** ** Python string operations *)

(** [str.isspace] on one character: the white space among the code points
    below 256 is U+0009 to U+000D, U+001C to U+0020, U+0085 and U+00A0. *)
Definition is_space (c : ascii) : bool :=
  let n := nat_of_ascii c in
  ((9 <=? n) && (n <=? 13)) || ((28 <=? n) && (n <=? 32))
  || (n =? 133) || (n =? 160).

Fixpoint lstrip (s : string) : string :=
  match s with
  | EmptyString => EmptyString
  | String c s' => if is_space c then lstrip s' else s
  end.

(** [s.strip()] *)
Definition strip (s : string) : string :=
  String.rev (lstrip (String.rev (lstrip s))).

(** [s.split()]: the maximal runs of characters that are not white space,
    in order.  [cur] is the run being read, last character first. *)
Fixpoint split_space_go (cur : string) (s : string) : list string :=
  match s with
  | EmptyString =>
      match cur with
      | EmptyString => []
      | _ => [String.rev cur]
      end
  | String c s' =>
      if is_space c then
        match cur with
        | EmptyString => split_space_go EmptyString s'
        | _ => String.rev cur :: split_space_go EmptyString s'
        end
      else split_space_go (String c cur) s'
  end.

Definition split_space (s : string) : list string :=
  split_space_go EmptyString s.

(** [s.split(sep)] for a one-character separator: the pieces between the
    occurrences of [sep], empty pieces included; never the empty list. *)
Fixpoint split_go (sep : ascii) (cur : string) (s : string) : list string :=
  match s with
  | EmptyString => [String.rev cur]
  | String c s' =>
      if decide (c = sep) then String.rev cur :: split_go sep EmptyString s'
      else split_go sep (String c cur) s'
  end.

Definition split (sep : ascii) (s : string) : list string :=
  split_go sep EmptyString s.

(** ** InputExample and InputFeatures *)

Record InputExample : Type := mkInputExample {
  guid : string;
  text_a : string;
  text_b : option string;
  label : option string
}.

Record InputFeatures : Type := mkInputFeatures {
  input_ids : list Z;
  input_mask : list Z;
  segment_ids : list Z;
  label_id : option nat;
  article_id : option string
}.

(** ** SemevalProcessor: the cached 80/20 split *)

(** [math.floor(0.8 * n)].  The double nearest to 0.8 lies just above 4/5
    (by less than 2^-53 relative), so for every list length that fits in
    memory the rounded product has the floor of the exact [4n/5]. *)
Definition floor_0_8 (n : nat) : Z := (4 * Z.of_nat n) / 5.

Module SemevalProcessor.

(** The two files [_create_examples] reads under [data_dir], as their
    lines: the article texts and the ground-truth labels. *)
Record data_dir : Type := mkDataDir {
  data_file : list string;
  label_file : list string
}.

(** The processor object: its one attribute, [self.examples]. *)
Record self : Type := mkSelf { examples : option (list InputExample) }.

(** [__init__] *)
Definition init : self := {| examples := None |}.

Definition make_example (i : nat) (lines : string * string) : InputExample :=
  {| guid := pretty i;
     text_a := strip lines.1;
     text_b := None;
     label := Some (strip lines.2) |}.

Definition _create_examples (d : data_dir) : list InputExample :=
  imap make_example (zip (data_file d) (label_file d)).

Definition get_train_examples (s : self) (d : data_dir)
  : list InputExample * self :=
  match examples s with
  | Some ex => (slice_to ex (Z.of_nat (length ex)), s)
  | None =>
      let ex := _create_examples d in
      (slice_to ex (floor_0_8 (length ex)), {| examples := Some ex |})
  end.

Definition get_dev_examples (s : self) (d : data_dir)
  : list InputExample * self :=
  match examples s with
  | Some ex => (slice_from ex (floor_0_8 (length ex)), s)
  | None =>
      let ex := _create_examples d in
      (slice_from ex (floor_0_8 (length ex)), {| examples := Some ex |})
  end.

Definition get_labels : list string := ["false"; "true"]%string.

(** A directory of five lines of text with their labels. *)
Definition five_articles : data_dir :=
  {| data_file := ["a"; "b"; "c"; "d"; "e"]%string;
     label_file := ["true"; "false"; "true"; "false"; "true"]%string |}.

(** A sequence of calls on one processor and one directory. *)
Inductive call : Type := Train | Dev.

Definition do_call (c : call) (s : self) (d : data_dir)
  : list InputExample * self :=
  match c with
  | Train => get_train_examples s d
  | Dev => get_dev_examples s d
  end.

(** The results of a sequence of calls, in order, starting from [s]. *)
Fixpoint run_calls (cs : list call) (s : self) (d : data_dir)
  : list (call * list InputExample) :=
  match cs with
  | [] => []
  | c :: cs' =>
      let r := do_call c s d in
      (c, r.1) :: run_calls cs' r.2 d
  end.

End SemevalProcessor.

(** ** SemevalOfficialProcessor: example ids of the inference corpus *)

Module SemevalOfficialProcessor.

(** An [article] element as [_create_examples] uses it: its [id]
    attribute ([article.get('id')], [None] when the attribute is missing)
    and the text [_extract_text] finds under its [spacy] node. *)
Record article : Type := mkArticle {
  attr_id : option string;
  extracted_text : string
}.

(** ["%s" % x] for a string or [None] *)
Definition format_s (x : option string) : string := default "None"%string x.

(** [" ".join(s.split())] *)
Definition normalize_space (s : string) : string :=
  foldr (λ w acc, match acc with
                  | EmptyString => w
                  | _ => w +:+ " " +:+ acc
                  end) EmptyString (split_space s).

Definition make_example (set_type : string) (a : article) : InputExample :=
  let article_id := attr_id a in
  let article_guid := set_type +:+ "-" +:+ format_s article_id in
  let article_text := normalize_space (extracted_text a) in
  {| guid := article_guid; text_a := article_text;
     text_b := None; label := None |}.

(** The loop of [_create_examples] over the parsed articles. *)
Definition _create_examples (articles : list article) (set_type : string)
  : list InputExample :=
  make_example set_type <$> articles.

Definition get_train_examples : outcome (list InputExample) :=
  Raise NotImplementedError.

(** [get_dev_examples], given the articles of the directory's [.xml] file. *)
Definition get_dev_examples (articles : list article) : list InputExample :=
  _create_examples articles "inference".

Definition get_labels : list string := ["false"; "true"]%string.

End SemevalOfficialProcessor.

(** ** The random source *)

(** The state of the module-level generator of [random], as the tape of the
    draws it is going to produce.  An exhausted tape draws 0. *)
Definition rng : Type := list nat.

(** [_randbelow(n)]: the next draw, reduced into [0 .. n-1]. *)
Definition randbelow (n : nat) (g : rng) : nat * rng :=
  match g with
  | [] => (0, [])
  | r :: g' => (r `mod` n, g')
  end.

Section shuffle.
Context {A : Type}.

(** [x[i], x[j] = x[j], x[i]] *)
Definition swap (x : list A) (i j : nat) : list A :=
  match x !! i, x !! j with
  | Some a, Some b => <[j:=a]> (<[i:=b]> x)
  | _, _ => x
  end.

(** [for i in reversed(range(1, i + 1)): j = randbelow(i + 1); swap] *)
Fixpoint shuffle_from (i : nat) (x : list A) (g : rng) : list A * rng :=
  match i with
  | 0 => (x, g)
  | S i' =>
      let '(j, g') := randbelow (S i) g in
      shuffle_from i' (swap x i j) g'
  end.

(** The exchange of the indices [i] and [j], which is how [swap] moves
    the elements. *)
Definition transpose (i j k : nat) : nat :=
  if decide (k = j) then i else if decide (k = i) then j else k.

(** [random.shuffle(x)] *)
Definition shuffle (x : list A) (g : rng) : list A * rng :=
  shuffle_from (length x - 1) x g.
End shuffle.

(** ** permutation: the n-gram augmentor *)

Section permutation.
Context {A : Type}.

(** The chunking loop, [fuel] bounding the number of times its condition
    is tested; [None] when the bound is reached. *)
Fixpoint ngrams_loop (fuel : nat) (tokens : list A) (permute_ngrams : Z)
    (i : Z) (ngrams : list (list A)) : option (list (list A)) :=
  match fuel with
  | 0 => None
  | S fuel' =>
      if (i <? Z.of_nat (length tokens))%Z
      then ngrams_loop fuel' tokens permute_ngrams (i + permute_ngrams)
             (ngrams ++ [py_slice tokens i (i + permute_ngrams)])
      else Some ngrams
  end.

(** [reduce(lambda a, b: a + b, ngrams, [])] *)
Definition reduce_concat (ngrams : list (list A)) : list A :=
  foldl (λ a b, a ++ b) [] ngrams.

(** [permutation(tokens, permute_ngrams)].  The loop is given
    [len(tokens) + 1] tests of its condition, which is as many as it can
    use when it ends at all ([ngrams_loop_fuel_enough] and
    [ngrams_loop_stuck] below). *)
Definition permutation (tokens : list A) (permute_ngrams : option Z)
    (g : rng) : outcome (list A * rng) :=
  match permute_ngrams with
  | None => Ret (tokens, g)
  | Some w =>
      match ngrams_loop (S (length tokens)) tokens w 0 [] with
      | None => Diverge
      | Some ngrams =>
          let '(ngrams', g') := shuffle ngrams g in
          Ret (reduce_concat ngrams', g')
      end
  end.

(** The chunks the spec names: [tokens[0:w], tokens[w:2w], ...]. *)
Definition chunks (w : nat) (tokens : list A) : list (list A) :=
  (λ k, take w (drop (k * w) tokens))
    <$> seq 0 ((length tokens + w - 1) `div` w).
End permutation.

(** ** _truncate_seq_pair *)

Inductive side : Type := SideA | SideB.

Global Instance side_eq_dec : EqDecision side.
Proof. solve_decision. Defined.

Section truncate.
Context {A : Type}.

(** The [while True] loop.  [log] records, oldest first, from which
    sequence each pass popped; it is not part of the Python state.
    [fuel] bounds the number of passes. *)
Fixpoint truncate_loop (fuel : nat) (tokens_a tokens_b : list A)
    (max_length : Z) (log : list side)
  : outcome (list A * list A * list side) :=
  match fuel with
  | 0 => Diverge
  | S fuel' =>
      let total_length := Z.of_nat (length tokens_a + length tokens_b) in
      if (total_length <=? max_length)%Z then Ret (tokens_a, tokens_b, log)
      else if (length tokens_b <? length tokens_a)%nat then
        tokens_a' ← pop tokens_a;
        truncate_loop fuel' tokens_a' tokens_b max_length (log ++ [SideA])
      else
        tokens_b' ← pop tokens_b;
        truncate_loop fuel' tokens_a tokens_b' max_length (log ++ [SideB])
  end.

(** The loop with one pass more than there are tokens: every pass but
    the last pops a token or raises. *)
Definition truncate_trace (tokens_a tokens_b : list A) (max_length : Z)
  : outcome (list A * list A * list side) :=
  truncate_loop (S (length tokens_a + length tokens_b))
    tokens_a tokens_b max_length [].

(** [_truncate_seq_pair(tokens_a, tokens_b, max_length)]: the two lists
    as the call leaves them. *)
Definition _truncate_seq_pair (tokens_a tokens_b : list A) (max_length : Z)
  : outcome (list A * list A) :=
  r ← truncate_trace tokens_a tokens_b max_length; mret r.1.

(** The truncator as the spec words it: the longer sequence loses its
    last token, and on a tie [A] does. *)
Fixpoint spec_truncate (fuel : nat) (a b : list A) (budget : Z)
  : list A * list A :=
  match fuel with
  | 0 => (a, b)
  | S fuel' =>
      if (Z.of_nat (length a + length b) <=? budget)%Z then (a, b)
      else if (length b <=? length a)%nat
           then spec_truncate fuel' (removelast a) b budget
           else spec_truncate fuel' a (removelast b) budget
  end.
End truncate.

(** ** construct_features: the feature assembler *)

(** The [BertTokenizer] collaborator, by the two methods the assembler
    calls. *)
Record Tokenizer : Type := mkTokenizer {
  tokenize : string → list string;
  convert_tokens_to_ids : list string → list Z
}.

(** The tuple [construct_features] unpacks. *)
Record inputs : Type := mkInputs {
  ex_index : nat;
  example : InputExample;
  max_seq_length : Z;
  tokenizer : Tokenizer;
  label_map : gmap string nat;
  predict : bool;
  permute_ngrams : option Z
}.

(** [tokens_b]: [None] unless [example.text_b] is a non-empty string. *)
Definition tokenize_text_b (inp : inputs) (g : rng)
  : outcome (option (list string) * rng) :=
  match text_b (example inp) with
  | Some ((String _ _) as tb) =>
      '(tokens_b, g') ←
        permutation (tokenize (tokenizer inp) tb) (permute_ngrams inp) g;
      mret (Some tokens_b, g')
  | _ => mret (None, g)
  end.

(** [if tokens_b: _truncate_seq_pair(...) else: tokens_a[0:L - 2]] *)
Definition truncate_tokens (max_seq_length : Z) (tokens_a : list string)
    (tokens_b : option (list string))
  : outcome (list string * option (list string)) :=
  match tokens_b with
  | Some ((_ :: _) as tb) =>
      '(tokens_a', tokens_b') ←
        _truncate_seq_pair tokens_a tb (max_seq_length - 3);
      mret (tokens_a', Some tokens_b')
  | _ =>
      if (max_seq_length - 2 <? Z.of_nat (length tokens_a))%Z
      then mret (py_slice tokens_a 0 (max_seq_length - 2), tokens_b)
      else mret (tokens_a, tokens_b)
  end.

(** The token stream with its markers, and the segment ids. *)
Definition mark_segments (tokens_a : list string)
    (tokens_b : option (list string)) : list string * list Z :=
  let tokens := ["[CLS]"%string] ++ tokens_a ++ ["[SEP]"%string] in
  let segment_ids := [0%Z] ++ ((λ _, 0%Z) <$> tokens_a) ++ [0%Z] in
  match tokens_b with
  | Some ((_ :: _) as tb) =>
      (tokens ++ tb ++ ["[SEP]"%string],
       segment_ids ++ ((λ _, 1%Z) <$> tb) ++ [1%Z])
  | _ => (tokens, segment_ids)
  end.

(** The first half of [construct_features], up to the token stream
    [tokens] and its [segment_ids]. *)
Definition assemble (inp : inputs) (g : rng)
  : outcome (list string * list Z * rng) :=
  '(tokens_a, g) ←
    permutation (tokenize (tokenizer inp) (text_a (example inp)))
      (permute_ngrams inp) g;
  '(tokens_b, g) ← tokenize_text_b inp g;
  '(tokens_a, tokens_b) ←
    truncate_tokens (max_seq_length inp) tokens_a tokens_b;
  let '(tokens, segment_ids) := mark_segments tokens_a tokens_b in
  mret (tokens, segment_ids, g).

(** The number of passes of
    [while len(input_ids) < max_seq_length: ...append(0)]. *)
Definition pad_count (max_seq_length : Z) (input_ids : list Z) : nat :=
  Z.to_nat (max_seq_length - Z.of_nat (length input_ids)).

(** [label_map[example.label]] *)
Definition lookup_label (label_map : gmap string nat) (label : option string)
  : outcome nat :=
  match label ≫= (label_map !!.) with
  | Some i => Ret i
  | None => Raise KeyError
  end.

(** [construct_features(inputs)], threading the generator.  The log lines
    written for [ex_index < 1] leave no trace in the result. *)
Definition construct_features (inp : inputs) (g : rng)
  : outcome (InputFeatures * rng) :=
  '(tokens, segment_ids, g) ← assemble inp g;
  let input_ids := convert_tokens_to_ids (tokenizer inp) tokens in
  let input_mask := replicate (length input_ids) 1%Z in
  let n := pad_count (max_seq_length inp) input_ids in
  let input_ids := input_ids ++ replicate n 0%Z in
  let input_mask := input_mask ++ replicate n 0%Z in
  let segment_ids := segment_ids ++ replicate n 0%Z in
  _ ← assert (Z.of_nat (length input_ids) =? max_seq_length inp)%Z;
  _ ← assert (Z.of_nat (length input_mask) =? max_seq_length inp)%Z;
  _ ← assert (Z.of_nat (length segment_ids) =? max_seq_length inp)%Z;
  if predict inp then
    article_id ← index (split "-" (guid (example inp))) 1;
    mret ({| input_ids := input_ids; input_mask := input_mask;
             segment_ids := segment_ids; label_id := None;
             article_id := Some article_id |}, g)
  else
    label_id ← lookup_label (label_map inp) (label (example inp));
    mret ({| input_ids := input_ids; input_mask := input_mask;
             segment_ids := segment_ids; label_id := Some label_id;
             article_id := None |}, g).

(** ** convert_examples_to_features: the pooled converter *)

(** [for (i, label) in enumerate(label_list): label_map[label] = i] *)
Definition make_label_map (label_list : list string) : gmap string nat :=
  foldl (λ m il, <[il.2:=il.1]> m) ∅ (imap pair label_list).

(** [chunksize=100] *)
Definition chunksize : nat := 100.

(** One run of a [multiprocessing.Pool]: how many worker processes it has,
    which worker takes which chunk of tasks, and the state of [random]'s
    generator in each worker when it starts.  A worker runs the tasks of its
    chunks one after the other, in the order of the input. *)
Record pool : Type := mkPool {
  processes : nat;
  takes : nat → nat;
  seed : nat → rng
}.

Definition worker_of (p : pool) (i : nat) : nat :=
  takes p (i `div` chunksize) `mod` processes p.

(** [p.imap(f, tasks, chunksize=100)], consumed to its end: the results in
    the order of the tasks; the first task, in that order, that does not
    return decides the outcome.  [st] holds each worker's generator. *)
Fixpoint pool_imap {T R : Type} (p : pool) (f : T → rng → outcome (R * rng))
    (tasks : list T) (i : nat) (st : nat → rng) : outcome (list R) :=
  match tasks with
  | [] => mret []
  | t :: tasks' =>
      let w := worker_of p i in
      '(r, g') ← f t (st w);
      rs ← pool_imap p f tasks' (S i) (<[w:=g']> st);
      mret (r :: rs)
  end.

(** The generator of worker [w] once the tasks [tasks], which stand at the
    places from [i] on, are done: the worker's own tasks have moved it, one
    after the other, and the tasks of the other workers have not. *)
Fixpoint generator_after {T R : Type} (p : pool)
    (f : T → rng → outcome (R * rng)) (w : nat)
    (tasks : list T) (i : nat) (g : rng) : rng :=
  match tasks with
  | [] => g
  | t :: tasks' =>
      if decide (worker_of p i = w) then
        match f t g with
        | Ret (_, g') => generator_after p f w tasks' (S i) g'
        | _ => g
        end
      else generator_after p f w tasks' (S i) g
  end.

(** The generator with which the worker of the task at place [i] starts
    that task: its seed, moved by the tasks before [i] that it ran. *)
Definition generator_at {T R : Type} (p : pool)
    (f : T → rng → outcome (R * rng)) (tasks : list T) (i : nat) : rng :=
  generator_after p f (worker_of p i) (take i tasks) 0
    (seed p (worker_of p i)).

Definition convert_examples_to_features (p : pool)
    (examples : list InputExample) (label_list : list string)
    (max_seq_length : Z) (tokenizer : Tokenizer) (predict : bool)
    (permute_ngrams : option Z) : outcome (list InputFeatures) :=
  let label_map := make_label_map label_list in
  pool_imap p construct_features
    (imap (λ i ex, mkInputs i ex max_seq_length tokenizer label_map
                     predict permute_ngrams) examples)
    0 (seed p).

(** The pool with one worker, started with generator [g]. *)
Definition one_worker (g : rng) : pool :=
  {| processes := 1; takes := λ _, 0; seed := λ _, g |}.

(** The sequential map of the assembler over the tasks, one generator
    running through all of them. *)
Fixpoint sequential_map (tasks : list inputs) (g : rng)
  : outcome (list InputFeatures) :=
  match tasks with
  | [] => mret []
  | t :: tasks' =>
      '(r, g') ← construct_features t g;
      rs ← sequential_map tasks' g';
      mret (r :: rs)
  end.

(** ** Inputs for the examples *)

(** [sep in s] *)
Fixpoint contains (sep : ascii) (s : string) : bool :=
  match s with
  | EmptyString => false
  | String c s' => if decide (c = sep) then true else contains sep s'
  end.

(** A stand-in for [BertTokenizer]: the tokens are the words of the text
    and the id of a token is its length. *)
Definition word_tokenizer : Tokenizer :=
  {| tokenize := String.words;
     convert_tokens_to_ids := fmap (λ t, Z.of_nat (String.length t)) |}.

(** An article of the inference corpus whose id holds a hyphen. *)
Definition hyphen_article : SemevalOfficialProcessor.article :=
  {| SemevalOfficialProcessor.attr_id := Some "12-34"%string;
     SemevalOfficialProcessor.extracted_text := "breaking  news"%string |}.

(** The task [convert_examples_to_features] makes of an example. *)
Definition task (i : nat) (ex : InputExample) (label_list : list string)
    (max_seq_length : Z) (tokenizer : Tokenizer) (predict : bool)
    (permute_ngrams : option Z) : inputs :=
  mkInputs i ex max_seq_length tokenizer (make_label_map label_list)
    predict permute_ngrams.

(** A labelled example of two words. *)
Definition two_words : InputExample :=
  {| guid := "0"; text_a := "a bb"; text_b := None; label := Some "true"%string |}.

(** The record of [two_words] for [max_seq_length = 8] and the labels
    [false], [true]. *)
Definition two_words_features : InputFeatures :=
  {| input_ids := [5; 1; 2; 5; 0; 0; 0; 0]%Z;
     input_mask := [1; 1; 1; 1; 0; 0; 0; 0]%Z;
     segment_ids := [0; 0; 0; 0; 0; 0; 0; 0]%Z;
     label_id := Some 1;
     article_id := None |}.

(** A labelled pair of texts, longer together than a record of 8. *)
Definition word_pair : InputExample :=
  {| guid := "dev-1"; text_a := "the cat sat on the mat";
     text_b := Some "a dog ran"%string; label := Some "1"%string |}.

(** A corpus of 101 articles, one more than a chunk of the pool holds,
    each of the two words [a bb]. *)
Definition hundred_and_one : SemevalProcessor.data_dir :=
  {| SemevalProcessor.data_file := replicate 101 "a bb"%string;
     SemevalProcessor.label_file := replicate 101 "true"%string |}.

(** A generator whose first hundred draws are 0 and whose next is 1. *)
Definition late_one : rng := replicate 100 0 ++ [1].

(** The examples of that corpus. *)
Definition late_examples : list InputExample :=
  SemevalProcessor._create_examples hundred_and_one.

(** Two workers: the chunks alternate between them. *)
Definition two_workers (g0 g1 : rng) : pool :=
  {| processes := 2; takes := λ c, c;
     seed := λ w, if decide (w = 0) then g0 else g1 |}.

(** ** The tab-separated sources: MrpcProcessor, MnliProcessor, ColaProcessor *)

(** ["%s-%s" % (set_type, x)] for a string [x] *)
Definition format_guid (set_type x : string) : string :=
  set_type +:+ "-" +:+ x.

(** [l[-1]]: the last element; [IndexError] on the empty list. *)
Definition last_item {A : Type} (l : list A) : outcome A :=
  match last l with
  | Some x => Ret x
  | None => Raise IndexError
  end.

(** The loop the three [_create_examples] share,
    [for (i, line) in enumerate(lines): ... examples.append(...)],
    from row [i] on; [skip_header] is the [if i == 0: continue] that two of
    them have, and [make] is the rest of the body. *)
Fixpoint rows_loop (skip_header : bool)
    (make : nat → list string → outcome InputExample)
    (i : nat) (lines : list (list string)) (examples : list InputExample)
  : outcome (list InputExample) :=
  match lines with
  | [] => mret examples
  | line :: lines' =>
      if skip_header && (i =? 0) then
        rows_loop skip_header make (S i) lines' examples
      else
        ex ← make i line;
        rows_loop skip_header make (S i) lines' (examples ++ [ex])
  end.

Module MrpcProcessor.

Definition make_example (set_type : string) (i : nat) (line : list string)
  : outcome InputExample :=
  let guid := format_guid set_type (pretty i) in
  text_a ← index line 3;
  text_b ← index line 4;
  label ← index line 0;
  mret {| guid := guid; text_a := text_a; text_b := Some text_b;
          label := Some label |}.

Definition _create_examples (lines : list (list string)) (set_type : string)
  : outcome (list InputExample) :=
  rows_loop true (make_example set_type) 0 lines [].

Definition get_labels : list string := ["0"; "1"]%string.

End MrpcProcessor.

Module MnliProcessor.

Definition make_example (set_type : string) (i : nat) (line : list string)
  : outcome InputExample :=
  id ← index line 0;
  let guid := format_guid set_type id in
  text_a ← index line 8;
  text_b ← index line 9;
  label ← last_item line;
  mret {| guid := guid; text_a := text_a; text_b := Some text_b;
          label := Some label |}.

Definition _create_examples (lines : list (list string)) (set_type : string)
  : outcome (list InputExample) :=
  rows_loop true (make_example set_type) 0 lines [].

Definition get_labels : list string :=
  ["contradiction"; "entailment"; "neutral"]%string.

End MnliProcessor.

Module ColaProcessor.

Definition make_example (set_type : string) (i : nat) (line : list string)
  : outcome InputExample :=
  let guid := format_guid set_type (pretty i) in
  text_a ← index line 3;
  label ← index line 1;
  mret {| guid := guid; text_a := text_a; text_b := None;
          label := Some label |}.

Definition _create_examples (lines : list (list string)) (set_type : string)
  : outcome (list InputExample) :=
  rows_loop false (make_example set_type) 0 lines [].

Definition get_labels : list string := ["0"; "1"]%string.

End ColaProcessor.

(** ** Lengths the truncator leaves *)

(** How many tokens of [A] a call of [_truncate_seq_pair] keeps, for
    lengths [la] and [lb] and a budget [m >= 0]: all of them when the pair
    fits; otherwise half the budget, rounded up, or what [B] leaves of the
    budget if that is more, and never more than there are. *)
Definition kept_a (la lb : nat) (m : Z) : nat :=
  if (Z.of_nat (la + lb) <=? m)%Z then la
  else la `min` Z.to_nat (Z.max (m - Z.of_nat lb) ((m + 1) / 2)).

(** How many tokens of [B] it keeps: the rest of the budget. *)
Definition kept_b (la lb : nat) (m : Z) : nat :=
  if (Z.of_nat (la + lb) <=? m)%Z then lb
  else Z.to_nat m - kept_a la lb m.

(** ** More inputs for the examples *)

(** A table with a header row and two rows of five columns. *)
Definition mrpc_rows : list (list string) :=
  [ ["Quality"; "#1 ID"; "#2 ID"; "#1 String"; "#2 String"];
    ["1"; "11"; "12"; "a cat"; "one cat"];
    ["0"; "21"; "22"; "a dog"; "the sun"] ]%string.

(** The same table with its last row cut to four columns. *)
Definition mrpc_short_rows : list (list string) :=
  [ ["Quality"; "#1 ID"; "#2 ID"; "#1 String"; "#2 String"];
    ["1"; "11"; "12"; "a cat"; "one cat"];
    ["0"; "21"; "22"; "a dog"] ]%string.

(** An article of the inference corpus with a numeric id. *)
Definition plain_article : SemevalOfficialProcessor.article :=
  {| SemevalOfficialProcessor.attr_id := Some "0000123"%string;
     SemevalOfficialProcessor.extracted_text := "breaking  news"%string |}.

(** * Properties *)

(** ** Slices *)

Section slice_facts.
Context {A : Type}.
Implicit Types l : list A.

Lemma slice_bound_nonneg n (i : Z) :
  (0 ≤ i)%Z → slice_bound n i = Z.to_nat i `min` n.
Proof.
  intros Hi. unfold slice_bound.
  destruct (Z.ltb_spec i 0) as [?|?]; [lia|done].
Qed.

Lemma py_slice_prefix l (j : Z) :
  (0 ≤ j)%Z → py_slice l 0 j = take (Z.to_nat j) l.
Proof.
  intros Hj. unfold py_slice.
  rewrite !slice_bound_nonneg by lia. simpl.
  rewrite Nat.sub_0_r, drop_0.
  destruct (decide (Z.to_nat j ≤ length l)) as [?|?].
  - by rewrite Nat.min_l by lia.
  - rewrite Nat.min_r by lia.
    rewrite (take_ge l (length l)), (take_ge l (Z.to_nat j)) by lia. done.
Qed.

Lemma slice_to_all l : slice_to l (Z.of_nat (length l)) = l.
Proof.
  unfold slice_to. rewrite py_slice_prefix by lia.
  rewrite Nat2Z.id. by apply take_ge.
Qed.

Lemma slice_from_suffix l (i : Z) :
  (0 ≤ i)%Z → slice_from l i = drop (Z.to_nat i) l.
Proof.
  intros Hi. unfold slice_from, py_slice.
  rewrite !slice_bound_nonneg by lia. rewrite Nat2Z.id, Nat.min_id.
  destruct (decide (Z.to_nat i ≤ length l)) as [?|?].
  - rewrite Nat.min_l by lia. apply take_ge. rewrite length_drop. lia.
  - rewrite Nat.min_r by lia. rewrite Nat.sub_diag.
    rewrite (drop_ge l (Z.to_nat i)) by lia. by rewrite take_0.
Qed.

Lemma py_slice_length_le l (i j : Z) : length (py_slice l i j) ≤ length l.
Proof.
  unfold py_slice. rewrite length_take, length_drop. lia.
Qed.
End slice_facts.

Lemma floor_0_8_nat n : floor_0_8 n = Z.of_nat (4 * n / 5).
Proof.
  unfold floor_0_8. rewrite Nat2Z.inj_div, Nat2Z.inj_mul. done.
Qed.

Lemma floor_0_8_lt n : 0 < n → 4 * n / 5 < n.
Proof. intros Hn. apply Nat.Div0.div_lt_upper_bound. lia. Qed.

(** ** SemevalProcessor *)

Section semeval_split.
Import SemevalProcessor.

(** The first call of [get_train_examples] loads the examples and returns
    their first [floor(0.8 N)]. *)
Lemma get_train_examples_first d :
  get_train_examples init d =
    (take (4 * length (_create_examples d) / 5) (_create_examples d),
     {| examples := Some (_create_examples d) |}).
Proof.
  unfold get_train_examples, slice_to. simpl.
  rewrite floor_0_8_nat, py_slice_prefix by lia. by rewrite Nat2Z.id.
Qed.

(** Every call of [get_dev_examples] returns the examples from
    [floor(0.8 N)] on, cached or not. *)
Lemma get_dev_examples_cached ex d :
  get_dev_examples {| examples := Some ex |} d =
    (drop (4 * length ex / 5) ex, {| examples := Some ex |}).
Proof.
  unfold get_dev_examples. simpl.
  rewrite floor_0_8_nat, slice_from_suffix by lia. by rewrite Nat2Z.id.
Qed.

Lemma get_dev_examples_first d :
  get_dev_examples init d =
    (drop (4 * length (_create_examples d) / 5) (_create_examples d),
     {| examples := Some (_create_examples d) |}).
Proof.
  unfold get_dev_examples. simpl.
  rewrite floor_0_8_nat, slice_from_suffix by lia. by rewrite Nat2Z.id.
Qed.

(** Once the examples are cached, [get_train_examples] returns all of
    them: its slice ends at [floor(N)], not at [floor(0.8 N)]. *)
Lemma get_train_examples_cached ex d :
  get_train_examples {| examples := Some ex |} d =
    (ex, {| examples := Some ex |}).
Proof. unfold get_train_examples. simpl. by rewrite slice_to_all. Qed.

(** C1 (the code departs from the claim): on any non-empty corpus, a
    [get_dev_examples] call followed by a [get_train_examples] call on
    the same processor returns, as the train split, the whole cached
    sequence, so every example of the dev split is in the train split
    as well, and the dev split is not empty. *)
Theorem cached_train_split_contains_dev_split d :
  _create_examples d ≠ [] →
  ∃ dev train,
    run_calls [Dev; Train] init d = [(Dev, dev); (Train, train)] ∧
    train = _create_examples d ∧
    dev = drop (4 * length (_create_examples d) / 5) (_create_examples d) ∧
    dev ≠ [] ∧
    ∀ e, e ∈ dev → e ∈ train.
Proof.
  intros Hne.
  exists (drop (4 * length (_create_examples d) / 5) (_create_examples d)),
    (_create_examples d).
  split_and!; [|done..| |].
  - unfold run_calls, do_call.
    rewrite get_dev_examples_first. cbn [fst snd].
    by rewrite get_train_examples_cached.
  - intros Hnil. apply (f_equal length) in Hnil.
    rewrite length_drop in Hnil. cbn [length] in Hnil.
    assert (0 < length (_create_examples d)).
    { destruct (_create_examples d); [done|simpl; lia]. }
    pose proof (floor_0_8_lt (length (_create_examples d))). lia.
  - intros e He. by eapply subseteq_drop.
Qed.

Lemma cached_train_split_contains_dev_split_witness :
  _create_examples SemevalProcessor.five_articles ≠ [] ∧
  ∃ dev train,
    run_calls [Dev; Train] init SemevalProcessor.five_articles
      = [(Dev, dev); (Train, train)] ∧
    train = _create_examples SemevalProcessor.five_articles ∧
    dev = drop (4 * length (_create_examples SemevalProcessor.five_articles) / 5)
            (_create_examples SemevalProcessor.five_articles) ∧
    dev ≠ [] ∧
    ∀ e, e ∈ dev → e ∈ train.
Proof.
  split; [done|].
  apply (cached_train_split_contains_dev_split SemevalProcessor.five_articles). done.
Defined.
End semeval_split.

(** ** _truncate_seq_pair *)

Section truncate_facts.
Context {A : Type}.
Implicit Types a b : list A.

Lemma length_removelast a : length (removelast a) = length a - 1.
Proof.
  induction a as [|x [|y a] IH]; [done..|].
  change (removelast (x :: y :: a)) with (x :: removelast (y :: a)).
  cbn [length] in *. lia.
Qed.

Lemma pop_cons x a : pop (x :: a) = Ret (removelast (x :: a)).
Proof. done. Qed.

Lemma pop_nonempty a : a ≠ [] → pop a = Ret (removelast a).
Proof. by destruct a. Qed.

(** One pass of the loop, by cases. *)
Lemma truncate_loop_stop fuel a b (m : Z) log :
  (Z.of_nat (length a + length b) ≤ m)%Z →
  truncate_loop (S fuel) a b m log = Ret (a, b, log).
Proof.
  intros H. cbn [truncate_loop].
  destruct (Z.leb_spec (Z.of_nat (length a + length b)) m); [done|lia].
Qed.

Lemma truncate_loop_pop_a fuel a b (m : Z) log :
  (m < Z.of_nat (length a + length b))%Z → length b < length a →
  truncate_loop (S fuel) a b m log =
    truncate_loop fuel (removelast a) b m (log ++ [SideA]).
Proof.
  intros H Hlt. cbn [truncate_loop].
  destruct (Z.leb_spec (Z.of_nat (length a + length b)) m); [lia|].
  destruct (Nat.ltb_spec (length b) (length a)); [|lia].
  rewrite pop_nonempty; [done|]. intros ->. simpl in Hlt. lia.
Qed.

Lemma truncate_loop_pop_b fuel a b (m : Z) log :
  (m < Z.of_nat (length a + length b))%Z → length a ≤ length b → b ≠ [] →
  truncate_loop (S fuel) a b m log =
    truncate_loop fuel a (removelast b) m (log ++ [SideB]).
Proof.
  intros H Hle Hb. cbn [truncate_loop].
  destruct (Z.leb_spec (Z.of_nat (length a + length b)) m); [lia|].
  destruct (Nat.ltb_spec (length b) (length a)); [lia|].
  by rewrite pop_nonempty.
Qed.

Lemma truncate_loop_raise fuel (m : Z) log :
  (m < 0)%Z → truncate_loop (S fuel) (@nil A) [] m log = Raise IndexError.
Proof.
  intros H. cbn [truncate_loop length].
  destruct (Z.leb_spec (Z.of_nat (0 + 0)) m); [lia|done].
Qed.

(** Where the contents of two lists meet the conditions of a pass. *)
Lemma truncate_cases a b (m : Z) :
  (Z.of_nat (length a + length b) ≤ m)%Z
  ∨ ((m < Z.of_nat (length a + length b))%Z ∧ length b < length a)
  ∨ ((m < Z.of_nat (length a + length b))%Z ∧ length a ≤ length b ∧ b ≠ [])
  ∨ ((m < 0)%Z ∧ a = [] ∧ b = []).
Proof.
  destruct (Z.le_gt_cases (Z.of_nat (length a + length b)) m) as [?|?];
    [by left|right].
  destruct (Nat.lt_ge_cases (length b) (length a)) as [?|?];
    [by left|right].
  destruct b as [|y b]; [right|left; done].
  destruct a; simpl in *; [done|lia].
Qed.

(** More passes than tokens change nothing. *)
Lemma truncate_loop_fuel fuel1 fuel2 a b (m : Z) log :
  length a + length b < fuel1 → length a + length b < fuel2 →
  truncate_loop fuel1 a b m log = truncate_loop fuel2 a b m log.
Proof.
  revert fuel2 a b log.
  induction fuel1 as [|fuel1 IH]; intros [|fuel2] a b log H1 H2; [lia..|].
  destruct (truncate_cases a b m) as [?|[[??]|[(?&?&?)|(?&->&->)]]].
  - by rewrite !truncate_loop_stop.
  - rewrite !truncate_loop_pop_a by done.
    apply IH; rewrite length_removelast; lia.
  - rewrite !truncate_loop_pop_b by done.
    assert (0 < length b) by (destruct b; [done|simpl; lia]).
    apply IH; rewrite length_removelast; lia.
  - by rewrite !truncate_loop_raise.
Qed.

(** The log only accumulates: the lists do not depend on it. *)
Lemma truncate_loop_log fuel a b (m : Z) log :
  (r ← truncate_loop fuel a b m log; mret r.1) =
  (r ← truncate_loop fuel a b m []; mret r.1).
Proof.
  revert a b log. induction fuel as [|fuel IH]; intros a b log; [done|].
  destruct (truncate_cases a b m) as [?|[[??]|[(?&?&?)|(?&->&->)]]].
  - by rewrite !truncate_loop_stop.
  - rewrite !truncate_loop_pop_a by done.
    by rewrite IH, (IH _ _ ([] ++ _)).
  - rewrite !truncate_loop_pop_b by done.
    by rewrite IH, (IH _ _ ([] ++ _)).
  - by rewrite !truncate_loop_raise.
Qed.

(** With a budget that is not negative the loop ends within its passes,
    never raises, and pops one token in each pass but the last. *)
Lemma truncate_loop_total fuel a b (m : Z) log :
  (0 ≤ m)%Z → length a + length b < fuel →
  ∃ a' b' tr,
    truncate_loop fuel a b m log = Ret (a', b', log ++ tr) ∧
    length tr = Z.to_nat (Z.of_nat (length a + length b) - m) ∧
    length a' + length b' + length tr = length a + length b ∧
    (Z.of_nat (length a' + length b') ≤ m)%Z.
Proof.
  intros Hm. revert a b log.
  induction fuel as [|fuel IH]; intros a b log Hfuel; [lia|].
  destruct (truncate_cases a b m) as [?|[[??]|[(?&?&?)|(?&->&->)]]];
    [| | |lia].
  - exists a, b, []. rewrite truncate_loop_stop by done.
    rewrite app_nil_r. simpl. split_and!; [done|lia..].
  - rewrite truncate_loop_pop_a by done.
    destruct (IH (removelast a) b (log ++ [SideA]))
      as (a' & b' & tr & -> & Htr & Hlen & Hle).
    { rewrite length_removelast. lia. }
    rewrite length_removelast in Htr, Hlen.
    exists a', b', (SideA :: tr). rewrite <-app_assoc. simpl.
    split_and!; [done|lia..].
  - rewrite truncate_loop_pop_b by done.
    assert (0 < length b) by (destruct b; [done|simpl; lia]).
    destruct (IH a (removelast b) (log ++ [SideB]))
      as (a' & b' & tr & -> & Htr & Hlen & Hle).
    { rewrite length_removelast. lia. }
    rewrite length_removelast in Htr, Hlen.
    exists a', b', (SideB :: tr). rewrite <-app_assoc. simpl.
    split_and!; [done|lia..].
Qed.

(** The call never runs out of passes. *)
Lemma truncate_trace_not_diverge a b (m : Z) :
  truncate_trace a b m ≠ Diverge.
Proof.
  unfold truncate_trace.
  generalize (@nil side) as log.
  assert (length a + length b < S (length a + length b)) as Hf by lia.
  revert Hf. generalize (S (length a + length b)) as fuel.
  intros fuel. revert a b.
  induction fuel as [|fuel IH]; intros a b Hf log; [lia|].
  destruct (truncate_cases a b m) as [?|[[??]|[(?&?&?)|(?&->&->)]]].
  - by rewrite truncate_loop_stop.
  - rewrite truncate_loop_pop_a by done.
    apply IH. rewrite length_removelast. lia.
  - rewrite truncate_loop_pop_b by done.
    assert (0 < length b) by (destruct b; [done|simpl; lia]).
    apply IH. rewrite length_removelast. lia.
  - by rewrite truncate_loop_raise.
Qed.
End truncate_facts.

Section truncate_claims.
Context {A : Type}.
Implicit Types a b : list A.

Lemma truncate_seq_pair_unfold a b (m : Z) fuel :
  length a + length b < fuel →
  _truncate_seq_pair a b m = (r ← truncate_loop fuel a b m []; mret r.1).
Proof.
  intros Hf. unfold _truncate_seq_pair, truncate_trace.
  by rewrite (truncate_loop_fuel _ fuel) by lia.
Qed.

(** C2, as the code has it: while the two lengths exceed the budget, a
    pass pops the last token of the longer sequence, and of [B] when the
    two are equally long; at or below the budget the pair is returned as
    it is. *)
Theorem truncate_seq_pair_pops_longer_ties_b a b (m : Z) :
  ((Z.of_nat (length a + length b) ≤ m)%Z →
     _truncate_seq_pair a b m = Ret (a, b)) ∧
  ((m < Z.of_nat (length a + length b))%Z → length b < length a →
     _truncate_seq_pair a b m = _truncate_seq_pair (removelast a) b m) ∧
  ((m < Z.of_nat (length a + length b))%Z → length a < length b →
     _truncate_seq_pair a b m = _truncate_seq_pair a (removelast b) m) ∧
  ((m < Z.of_nat (length a + length b))%Z → length a = length b →
     _truncate_seq_pair a b m = _truncate_seq_pair a (removelast b) m).
Proof.
  assert (∀ a b, (m < Z.of_nat (length a + length b))%Z →
    length a ≤ length b → b ≠ [] →
    _truncate_seq_pair a b m = _truncate_seq_pair a (removelast b) m)
    as Hpop_b.
  { clear a b. intros a b Hm Hle Hb.
    assert (0 < length b) by (destruct b; [done|simpl; lia]).
    rewrite (truncate_seq_pair_unfold a b m (S (length a + length b)))
      by lia.
    rewrite truncate_loop_pop_b by done.
    rewrite truncate_loop_log.
    symmetry. apply truncate_seq_pair_unfold.
    rewrite length_removelast. lia. }
  split_and!.
  - intros Hm. unfold _truncate_seq_pair, truncate_trace.
    by rewrite truncate_loop_stop.
  - intros Hm Hlt.
    rewrite (truncate_seq_pair_unfold a b m (S (length a + length b)))
      by lia.
    rewrite truncate_loop_pop_a by done.
    rewrite truncate_loop_log.
    symmetry. apply truncate_seq_pair_unfold.
    rewrite length_removelast. lia.
  - intros Hm Hlt. apply Hpop_b; [done|lia|].
    intros ->. simpl in Hlt. lia.
  - intros Hm Heq. destruct (decide (b = [])) as [->|Hb].
    + done.
    + apply Hpop_b; [done|lia|done].
Qed.

(** C7: with a budget that is not negative the truncator returns, after
    [len(A) + len(B) - L'] popping passes (none when the budget already
    holds), which is at most [len(A) + len(B)]; each of them shortens the
    pair by one token, and the pair that is left fits the budget. *)
Theorem truncate_terminates_within_total_length a b (m : Z) :
  (0 ≤ m)%Z →
  ∃ a' b' tr,
    truncate_trace a b m = Ret (a', b', tr) ∧
    _truncate_seq_pair a b m = Ret (a', b') ∧
    length tr ≤ length a + length b ∧
    length tr = Z.to_nat (Z.of_nat (length a + length b) - m) ∧
    length a' + length b' + length tr = length a + length b ∧
    (Z.of_nat (length a' + length b') ≤ m)%Z.
Proof.
  intros Hm.
  destruct (truncate_loop_total (S (length a + length b)) a b m [] Hm)
    as (a' & b' & tr & Hrun & Htr & Hlen & Hle); [lia|].
  exists a', b', tr. unfold _truncate_seq_pair, truncate_trace.
  rewrite Hrun. split_and!; [done|done|lia|done..].
Qed.
End truncate_claims.

Lemma truncate_seq_pair_pops_longer_ties_b_witness :
  _truncate_seq_pair [3; 4] [5; 6] 3%Z = _truncate_seq_pair [3; 4] [5] 3%Z.
Proof.
  apply (proj2 (proj2 (proj2
    (truncate_seq_pair_pops_longer_ties_b [3; 4] [5; 6] 3%Z)))).
  - simpl. lia.
  - reflexivity.
Defined.

(** C2, as the claim words it, fails on a tie: with one token on each side
    and budget 1 the code pops [B] and keeps [A], where the claim pops
    [A]. *)
Lemma truncate_seq_pair_tie_pops_b_not_a :
  length [3] = length [5] ∧
  (1 < Z.of_nat (length [3] + length [5]))%Z ∧
  truncate_trace [3] [5] 1%Z = Ret ([3], [], [SideB]) ∧
  _truncate_seq_pair [3] [5] 1%Z = Ret ([3], []) ∧
  _truncate_seq_pair [3] [5] 1%Z ≠ _truncate_seq_pair (removelast [3]) [5] 1%Z ∧
  spec_truncate 2 [3] [5] 1%Z = ([], [5]).
Proof. split_and!; [reflexivity|done|reflexivity|reflexivity|done|reflexivity]. Qed.

Lemma truncate_terminates_within_total_length_witness :
  (0 ≤ 4)%Z ∧
  ∃ a' b' tr,
    truncate_trace [1; 2; 3; 4; 5]%Z [1; 2]%Z 4%Z = Ret (a', b', tr) ∧
    _truncate_seq_pair [1; 2; 3; 4; 5]%Z [1; 2]%Z 4%Z = Ret (a', b') ∧
    length tr ≤ length [1; 2; 3; 4; 5]%Z + length [1; 2]%Z ∧
    length tr = Z.to_nat
      (Z.of_nat (length [1; 2; 3; 4; 5]%Z + length [1; 2]%Z) - 4) ∧
    length a' + length b' + length tr
      = length [1; 2; 3; 4; 5]%Z + length [1; 2]%Z ∧
    (Z.of_nat (length a' + length b') ≤ 4)%Z.
Proof.
  split; [lia|].
  apply (truncate_terminates_within_total_length
           [1; 2; 3; 4; 5]%Z [1; 2]%Z 4%Z). lia.
Defined.

(** C6: on [A = [1,2,3,4,5]], [B = [1,2]] and budget 4 the truncator
    returns [A = [1,2]], [B = [1,2]], of total length 4, after three
    passes that all popped [A]. *)
Theorem truncate_example_five_two_budget_four :
  truncate_trace [1; 2; 3; 4; 5]%Z [1; 2]%Z 4%Z
    = Ret ([1; 2]%Z, [1; 2]%Z, [SideA; SideA; SideA]) ∧
  _truncate_seq_pair [1; 2; 3; 4; 5]%Z [1; 2]%Z 4%Z
    = Ret ([1; 2]%Z, [1; 2]%Z) ∧
  length [1; 2]%Z + length [1; 2]%Z = 4.
Proof. split_and!; reflexivity. Qed.

(** ** random.shuffle *)

Section shuffle_facts.
Context {A : Type}.
Implicit Types x : list A.

Lemma transpose_inj i j : Inj (=) (=) (transpose i j).
Proof.
  intros k1 k2. unfold transpose.
  repeat case_decide; intros; subst; congruence.
Qed.

Lemma swap_length x i j : length (swap x i j) = length x.
Proof.
  unfold swap. destruct (x !! i), (x !! j); [|done..].
  by rewrite !length_insert.
Qed.

Lemma swap_lookup x i j k :
  i < length x → j < length x → swap x i j !! k = x !! transpose i j k.
Proof.
  intros Hi Hj. unfold swap, transpose.
  destruct (lookup_lt_is_Some_2 x i Hi) as [a Ha].
  destruct (lookup_lt_is_Some_2 x j Hj) as [b Hb].
  rewrite Ha, Hb.
  destruct (decide (k = j)) as [->|Hkj].
  - rewrite list_lookup_insert_eq by (by rewrite length_insert). done.
  - rewrite list_lookup_insert_ne by done.
    destruct (decide (k = i)) as [->|Hki].
    + by rewrite list_lookup_insert_eq.
    + by rewrite list_lookup_insert_ne.
Qed.

Lemma swap_Permutation x i j : swap x i j ≡ₚ x.
Proof.
  destruct (decide (i < length x ∧ j < length x)) as [[Hi Hj]|Hout].
  - apply Permutation_inj. split; [apply swap_length|].
    exists (transpose i j). split; [apply transpose_inj|].
    intros k. by apply swap_lookup.
  - unfold swap.
    destruct (x !! i) as [a|] eqn:Ha; [|done].
    destruct (x !! j) as [b|] eqn:Hb; [|done].
    apply lookup_lt_Some in Ha, Hb. lia.
Qed.

Lemma shuffle_from_Permutation i x g : (shuffle_from i x g).1 ≡ₚ x.
Proof.
  revert x g. induction i as [|i IH]; intros x g; [done|].
  cbn [shuffle_from].
  destruct (randbelow (S (S i)) g) as [j g'].
  rewrite IH. apply swap_Permutation.
Qed.

Lemma shuffle_Permutation x g : (shuffle x g).1 ≡ₚ x.
Proof. apply shuffle_from_Permutation. Qed.
End shuffle_facts.

(** ** permutation *)

Section permutation_facts.
Context {A : Type}.
Implicit Types tokens : list A.

Lemma reduce_concat_concat (ngrams : list (list A)) :
  reduce_concat ngrams = concat ngrams.
Proof.
  unfold reduce_concat.
  assert (∀ acc, foldl (λ a b : list A, a ++ b) acc ngrams
                 = acc ++ concat ngrams) as H; [|apply H].
  induction ngrams as [|c ngrams IH]; intros acc; simpl.
  - by rewrite app_nil_r.
  - by rewrite IH, app_assoc.
Qed.

(** [tokens[i:i+w]] for an index and a width that are not negative. *)
Lemma py_slice_chunk tokens (i w : nat) :
  py_slice tokens (Z.of_nat i) (Z.of_nat i + Z.of_nat w)
    = take w (drop i tokens).
Proof.
  unfold py_slice. rewrite !slice_bound_nonneg by lia.
  rewrite <-Nat2Z.inj_add, !Nat2Z.id.
  destruct (decide (i ≤ length tokens)) as [Hi|Hi].
  - rewrite (Nat.min_l i) by lia.
    destruct (decide (i + w ≤ length tokens)) as [Hw|Hw].
    + rewrite Nat.min_l by lia. f_equal. lia.
    + rewrite Nat.min_r by lia.
      rewrite !take_ge; [done|rewrite length_drop; lia..].
  - rewrite !Nat.min_r by lia. rewrite Nat.sub_diag.
    rewrite (drop_ge tokens i) by lia. by rewrite take_0, take_nil.
Qed.

(** The number of chunks: [k] is the index of a chunk exactly when the
    chunk starts inside the sequence. *)
Lemma chunk_index_lt (w n k : nat) :
  1 ≤ w → k < (n + w - 1) `div` w ↔ k * w < n.
Proof.
  intros Hw. split.
  - intros Hk.
    pose proof (Nat.Div0.mul_div_le (n + w - 1) w).
    assert (w * S k ≤ w * ((n + w - 1) `div` w)) by (apply Nat.mul_le_mono_l; lia).
    nia.
  - intros Hk. unfold lt.
    apply Nat.div_le_lower_bound; [lia|nia].
Qed.

Lemma chunk_count_le (w n : nat) : 1 ≤ w → (n + w - 1) `div` w ≤ n.
Proof.
  intros Hw. destruct (decide ((n + w - 1) `div` w ≤ n)) as [?|Hgt]; [done|].
  assert (n < (n + w - 1) `div` w) as H%chunk_index_lt by lia; [nia|done].
Qed.

(** From the start of chunk [k] on, the loop appends the chunks that are
    left. *)
Lemma ngrams_loop_chunks tokens (w : nat) fuel k acc :
  1 ≤ w →
  k ≤ (length tokens + w - 1) `div` w →
  (length tokens + w - 1) `div` w - k < fuel →
  ngrams_loop fuel tokens (Z.of_nat w) (Z.of_nat (k * w)) acc =
    Some (acc ++ ((λ k, take w (drop (k * w) tokens))
                    <$> seq k ((length tokens + w - 1) `div` w - k))).
Proof.
  intros Hw. revert k acc.
  induction fuel as [|fuel IH]; intros k acc Hk Hfuel; [lia|].
  cbn [ngrams_loop].
  destruct (Z.ltb_spec (Z.of_nat (k * w)) (Z.of_nat (length tokens)))
    as [Hlt|Hge].
  - assert (k < (length tokens + w - 1) `div` w) as Hk'.
    { apply chunk_index_lt; lia. }
    replace (Z.of_nat (k * w) + Z.of_nat w)%Z with (Z.of_nat (S k * w))
      by lia.
    rewrite IH by lia.
    replace ((length tokens + w - 1) `div` w - k)
      with (S ((length tokens + w - 1) `div` w - S k)) by lia.
    cbn [seq fmap list_fmap]. rewrite <-app_assoc. cbn [app].
    do 3 f_equal.
    replace (Z.of_nat (S k * w)) with (Z.of_nat (k * w) + Z.of_nat w)%Z
      by lia.
    apply py_slice_chunk.
  - assert (¬ k < (length tokens + w - 1) `div` w) as Hk'.
    { rewrite chunk_index_lt by lia. lia. }
    replace ((length tokens + w - 1) `div` w - k) with 0 by lia.
    by rewrite app_nil_r.
Qed.

Lemma ngrams_loop_positive tokens (w : Z) :
  (1 ≤ w)%Z →
  ngrams_loop (S (length tokens)) tokens w 0 []
    = Some (chunks (Z.to_nat w) tokens).
Proof.
  intros Hw.
  pose proof (chunk_count_le (Z.to_nat w) (length tokens)).
  rewrite <-(Z2Nat.id w) at 1 by lia.
  change 0%Z with (Z.of_nat (0 * Z.to_nat w)).
  rewrite ngrams_loop_chunks by lia.
  by rewrite Nat.sub_0_r.
Qed.

(** With a width that is not positive the index never gets past the
    start of a non-empty sequence: the loop ends with no amount of
    fuel. *)
Lemma ngrams_loop_stuck tokens (w i : Z) fuel acc :
  (w ≤ 0)%Z → (i ≤ 0)%Z → tokens ≠ [] →
  ngrams_loop fuel tokens w i acc = None.
Proof.
  intros Hw Hi Hne. revert i acc Hi.
  induction fuel as [|fuel IH]; intros i acc Hi; [done|].
  cbn [ngrams_loop].
  destruct (Z.ltb_spec i (Z.of_nat (length tokens))) as [_|Hge].
  - apply IH. lia.
  - destruct tokens; [done|]. simpl in Hge. lia.
Qed.

Lemma ngrams_loop_mono tokens (w i : Z) fuel fuel' acc r :
  fuel ≤ fuel' →
  ngrams_loop fuel tokens w i acc = Some r →
  ngrams_loop fuel' tokens w i acc = Some r.
Proof.
  revert fuel' i acc.
  induction fuel as [|fuel IH]; intros [|fuel'] i acc Hle; [done|done|lia|].
  cbn [ngrams_loop]. case_match; [|done]. apply IH. lia.
Qed.

(** [len(tokens) + 1] tests are as many as the loop can use: whenever it
    ends at all, it ends within them, with the same chunks. *)
Lemma ngrams_loop_fuel_enough tokens (w : Z) fuel r :
  ngrams_loop fuel tokens w 0 [] = Some r →
  ngrams_loop (S (length tokens)) tokens w 0 [] = Some r.
Proof.
  intros Hr. destruct (decide (1 ≤ w)%Z) as [Hw|Hw].
  - pose proof (ngrams_loop_positive tokens w Hw) as Hc.
    apply (ngrams_loop_mono _ _ _ _ (fuel `max` S (length tokens)))
      in Hr, Hc; [|lia..].
    rewrite Hc in Hr. injection Hr as <-.
    by apply ngrams_loop_positive.
  - destruct tokens as [|t tokens].
    + destruct fuel; [done|]. done.
    + rewrite ngrams_loop_stuck in Hr by (done || lia). done.
Qed.

(** The chunks partition the sequence, in order. *)
Lemma concat_chunks_from tokens (w k c : nat) :
  concat ((λ k, take w (drop (k * w) tokens)) <$> seq k c)
    ++ drop ((k + c) * w) tokens
  = drop (k * w) tokens.
Proof.
  revert k. induction c as [|c IH]; intros k.
  - simpl. by rewrite Nat.add_0_r.
  - cbn [seq fmap list_fmap concat]. rewrite <-app_assoc.
    replace ((k + S c) * w) with ((S k + c) * w) by lia.
    rewrite IH.
    replace (S k * w) with (k * w + w) by lia.
    rewrite <-drop_drop. apply take_drop.
Qed.

Lemma concat_chunks tokens (w : nat) :
  1 ≤ w → concat (chunks w tokens) = tokens.
Proof.
  intros Hw. unfold chunks.
  pose proof (concat_chunks_from tokens w 0
                ((length tokens + w - 1) `div` w)) as H.
  rewrite drop_ge, app_nil_r in H; [done|].
  destruct (decide (length tokens ≤
    (0 + (length tokens + w - 1) `div` w) * w)) as [?|Hlt]; [done|].
  assert ((length tokens + w - 1) `div` w
            < (length tokens + w - 1) `div` w) as ?%Nat.lt_irrefl; [|done].
  apply chunk_index_lt; [done|]. lia.
Qed.

Lemma chunks_length_le tokens (w : nat) c :
  c ∈ chunks w tokens → length c ≤ w.
Proof.
  unfold chunks. intros (k & -> & _)%list_elem_of_fmap.
  rewrite length_take. lia.
Qed.

(** With a width of at least 1 the call returns the concatenation of the
    shuffled chunks. *)
Lemma permutation_positive_width tokens (w : Z) (g : rng) :
  (1 ≤ w)%Z →
  ∃ ngrams' g',
    permutation tokens (Some w) g = Ret (concat ngrams', g') ∧
    ngrams' ≡ₚ chunks (Z.to_nat w) tokens.
Proof.
  intros Hw. unfold permutation.
  rewrite ngrams_loop_positive by done.
  pose proof (shuffle_Permutation (chunks (Z.to_nat w) tokens) g) as Hp.
  destruct (shuffle (chunks (Z.to_nat w) tokens) g) as [ngrams' g'].
  exists ngrams', g'. by rewrite reduce_concat_concat.
Qed.
End permutation_facts.

(** C8: with a null width [permutation] returns its input; with a width
    [w >= 1] it returns the concatenation of a permutation of the chunks
    [tokens[0:w], tokens[w:2w], ...], each chunk kept as it is; so for
    [a b c d e] and width 2 the result concatenates [a b], [c d] and [e] in
    some order. *)
Theorem permutation_concatenates_permuted_chunks :
  (∀ (A : Type) (tokens : list A) (g : rng),
     permutation tokens None g = Ret (tokens, g)) ∧
  (∀ (A : Type) (tokens : list A) (w : Z) (g : rng),
     (1 ≤ w)%Z →
     ∃ ngrams' g',
       permutation tokens (Some w) g = Ret (concat ngrams', g') ∧
       ngrams' ≡ₚ chunks (Z.to_nat w) tokens) ∧
  (∀ g : rng,
     ∃ ngrams' g',
       permutation ["a"; "b"; "c"; "d"; "e"]%string (Some 2%Z) g
         = Ret (concat ngrams', g') ∧
       ngrams' ≡ₚ [["a"; "b"]; ["c"; "d"]; ["e"]]%string).
Proof.
  split_and!; [done|apply @permutation_positive_width|].
  intros g. apply (permutation_positive_width ["a"; "b"; "c"; "d"; "e"]%string 2%Z g). lia.
Qed.

Lemma permutation_concatenates_permuted_chunks_witness :
  (1 ≤ 2)%Z ∧
  ∃ ngrams' g',
    permutation ["a"; "b"; "c"; "d"; "e"]%string (Some 2%Z) [0; 1]
      = Ret (concat ngrams', g') ∧
    ngrams' ≡ₚ chunks (Z.to_nat 2) ["a"; "b"; "c"; "d"; "e"]%string.
Proof.
  split; [lia|].
  apply (proj1 (proj2 permutation_concatenates_permuted_chunks)). lia.
Defined.

(** C10: [permutation] returns for every token sequence when the width is
    null or at least 1; with a width of 0 or below and a sequence that is
    not empty, the chunking loop's index never leaves the start, the loop
    ends with no amount of fuel, and the call does not return. *)
Theorem permutation_returns_iff_width_positive :
  (∀ (A : Type) (tokens : list A) (g : rng),
     ∃ r, permutation tokens None g = Ret r) ∧
  (∀ (A : Type) (tokens : list A) (w : Z) (g : rng),
     (1 ≤ w)%Z → ∃ r, permutation tokens (Some w) g = Ret r) ∧
  (∀ (A : Type) (tokens : list A) (w : Z) (g : rng),
     (w ≤ 0)%Z → tokens ≠ [] →
     (∀ fuel, ngrams_loop fuel tokens w 0 [] = None) ∧
     permutation tokens (Some w) g = Diverge).
Proof.
  split_and!.
  - intros A tokens g. by exists (tokens, g).
  - intros A tokens w g Hw.
    destruct (permutation_positive_width tokens w g Hw)
      as (ngrams' & g' & -> & _).
    by eexists.
  - intros A tokens w g Hw Hne. split.
    + intros fuel. by apply ngrams_loop_stuck.
    + unfold permutation. by rewrite ngrams_loop_stuck.
Qed.

Lemma permutation_returns_iff_width_positive_witness :
  ((1 ≤ 2)%Z ∧
   ∃ r, permutation ["a"; "b"; "c"]%string (Some 2%Z) [1] = Ret r) ∧
  ((0 ≤ 0)%Z ∧ ["a"]%string ≠ [] ∧
   (∀ fuel, ngrams_loop fuel ["a"]%string 0 0 [] = None) ∧
   permutation ["a"]%string (Some 0%Z) [] = Diverge).
Proof.
  split.
  - split; [lia|].
    apply (proj1 (proj2 permutation_returns_iff_width_positive)). lia.
  - split; [lia|]. split; [done|].
    apply (proj2 (proj2 permutation_returns_iff_width_positive)); [lia|done].
Defined.

(** ** Strings *)

Lemma split_go_no_sep sep cur s :
  contains sep s = false → split_go sep cur s = [String.rev_app cur s].
Proof.
  revert cur. induction s as [|c s IH]; intros cur Hs; [done|].
  cbn [split_go contains] in *. case_decide; [done|]. by rewrite IH.
Qed.

Lemma split_no_sep sep s : contains sep s = false → split sep s = [s].
Proof. intros Hs. unfold split. by rewrite split_go_no_sep. Qed.

Lemma split_go_prefix sep cur p s :
  contains sep p = false →
  split_go sep cur (p +:+ String sep s)
    = String.rev_app cur p :: split_go sep EmptyString s.
Proof.
  revert cur. induction p as [|c p IH]; intros cur Hp.
  - change (EmptyString +:+ String sep s) with (String sep s).
    cbn [split_go]. by rewrite decide_True.
  - change (String c p +:+ String sep s) with (String c (p +:+ String sep s)).
    cbn [split_go contains] in *. case_decide; [done|]. by rewrite IH.
Qed.

Lemma split_prefix sep p s :
  contains sep p = false →
  split sep (p +:+ String sep s) = p :: split sep s.
Proof. intros Hp. unfold split. by rewrite split_go_prefix. Qed.

(** ** construct_features *)

Lemma mark_segments_length tokens_a tokens_b :
  length (mark_segments tokens_a tokens_b).2
    = length (mark_segments tokens_a tokens_b).1.
Proof.
  unfold mark_segments. destruct tokens_b as [[|t tb]|]; cbn [fst snd];
    repeat (rewrite ?length_app, ?length_fmap; cbn [length]); done.
Qed.

Lemma assemble_segments_length inp g tokens segs g' :
  assemble inp g = Ret (tokens, segs, g') → length segs = length tokens.
Proof.
  unfold assemble. intros H.
  destruct (permutation _ _ g) as [[tokens_a g1]| |]; [|done..].
  cbn in H.
  destruct (tokenize_text_b inp g1) as [[tokens_b g2]| |]; [|done..].
  cbn in H.
  destruct (truncate_tokens _ tokens_a tokens_b) as [[ta tb]| |]; [|done..].
  cbn in H.
  pose proof (mark_segments_length ta tb) as Hlen.
  destruct (mark_segments ta tb) as [tokens' segs'].
  cbv [mret outcome_ret] in H. by simplify_eq.
Qed.

(** What a returned record is made of. *)
Lemma construct_features_Ret inp g r g' :
  construct_features inp g = Ret (r, g') →
  ∃ tokens segs,
    let ids := convert_tokens_to_ids (tokenizer inp) tokens in
    let n := pad_count (max_seq_length inp) ids in
    assemble inp g = Ret (tokens, segs, g') ∧
    input_ids r = ids ++ replicate n 0%Z ∧
    input_mask r = replicate (length ids) 1%Z ++ replicate n 0%Z ∧
    segment_ids r = segs ++ replicate n 0%Z ∧
    Z.of_nat (length (input_ids r)) = max_seq_length inp ∧
    Z.of_nat (length (input_mask r)) = max_seq_length inp ∧
    Z.of_nat (length (segment_ids r)) = max_seq_length inp ∧
    (if predict inp
     then label_id r = None ∧
          ∃ aid, split "-" (guid (example inp)) !! 1 = Some aid ∧
                 article_id r = Some aid
     else article_id r = None ∧
          ∃ i, label (example inp) ≫= (label_map inp !!.) = Some i ∧
               label_id r = Some i).
Proof.
  unfold construct_features. intros H.
  destruct (assemble inp g) as [[[tokens segs] g1]| |]; [|done..].
  cbn in H. exists tokens, segs. cbn zeta.
  repeat match type of H with
  | context [assert (?x =? ?y)%Z] =>
      destruct (Z.eqb_spec x y); cbn in H; [|done]
  end.
  destruct (predict inp).
  - unfold index in H.
    destruct (split "-" (guid (example inp)) !! 1) as [aid|]; [|done].
    cbn in H. cbv [mret outcome_ret] in H. simplify_eq.
    cbn. split_and!; [done..|]. by exists aid.
  - unfold lookup_label in H.
    destruct (label (example inp) ≫= (label_map inp !!.)) as [i|]; [|done].
    cbn in H. cbv [mret outcome_ret] in H. simplify_eq.
    cbn. split_and!; [done..|]. by exists i.
Qed.

(** C3: each of the three arrays of a record [construct_features] returns
    has length [max_seq_length], whatever the mode. *)
Theorem construct_features_lengths inp g r g' :
  construct_features inp g = Ret (r, g') →
  Z.of_nat (length (input_ids r)) = max_seq_length inp ∧
  Z.of_nat (length (input_mask r)) = max_seq_length inp ∧
  Z.of_nat (length (segment_ids r)) = max_seq_length inp.
Proof.
  intros (tokens & segs & _ & _ & _ & _ & ? & ? & ? & _)%construct_features_Ret.
  done.
Qed.

(** C5: in a returned record the mask is 1 below the number of tokens of
    the stream (markers included) and 0 from there on, and from there on
    the ids and the segment ids are 0 as well. *)
Theorem construct_features_padding_trails inp g r g' :
  construct_features inp g = Ret (r, g') →
  ∃ tokens segs,
    assemble inp g = Ret (tokens, segs, g') ∧
    (Z.of_nat (length tokens) ≤ max_seq_length inp)%Z ∧
    input_mask r = replicate (length tokens) 1%Z
                     ++ replicate (Z.to_nat (max_seq_length inp)
                                     - length tokens) 0%Z ∧
    (∀ i, i < length tokens → input_mask r !! i = Some 1%Z) ∧
    (∀ i, length tokens ≤ i → i < Z.to_nat (max_seq_length inp) →
          input_ids r !! i = Some 0%Z ∧
          input_mask r !! i = Some 0%Z ∧
          segment_ids r !! i = Some 0%Z).
Proof.
  intros H. destruct (construct_features_Ret _ _ _ _ H)
    as (tokens & segs & Hasm & Hids & Hmask & Hsegs & Hl1 & Hl2 & Hl3 & _).
  cbn zeta in *.
  pose proof (assemble_segments_length _ _ _ _ _ Hasm) as Hseg.
  set (ids := convert_tokens_to_ids (tokenizer inp) tokens) in *.
  set (n := pad_count (max_seq_length inp) ids) in *.
  assert (length ids = length tokens) as Hlen.
  { rewrite Hids, length_app, length_replicate in Hl1.
    rewrite Hsegs, length_app, length_replicate in Hl3. lia. }
  assert (n = Z.to_nat (max_seq_length inp) - length tokens) as Hn.
  { rewrite Hids, length_app, length_replicate in Hl1. lia. }
  exists tokens, segs. split_and!.
  - done.
  - rewrite Hids, length_app, length_replicate in Hl1. lia.
  - by rewrite Hmask, Hlen, Hn.
  - intros i Hi. rewrite Hmask, lookup_app_l
      by (rewrite length_replicate; lia).
    apply lookup_replicate_2. lia.
  - intros i Hi Hi'. split_and!.
    + rewrite Hids, lookup_app_r by lia.
      apply lookup_replicate_2. lia.
    + rewrite Hmask, lookup_app_r by (rewrite length_replicate; lia).
      apply lookup_replicate_2. rewrite length_replicate. lia.
    + rewrite Hsegs, lookup_app_r by lia.
      apply lookup_replicate_2. lia.
Qed.

Lemma construct_features_lengths_witness :
  ∃ r g',
    construct_features
      (task 0 word_pair ["0"; "1"]%string 8 word_tokenizer false (Some 2%Z))
      [1; 0; 1] = Ret (r, g') ∧
    Z.of_nat (length (input_ids r)) = 8%Z ∧
    Z.of_nat (length (input_mask r)) = 8%Z ∧
    Z.of_nat (length (segment_ids r)) = 8%Z.
Proof.
  eexists _, _. split; [vm_compute; reflexivity|].
  apply (construct_features_lengths
           (task 0 word_pair ["0"; "1"]%string 8 word_tokenizer false
              (Some 2%Z)) [1; 0; 1] _ []).
  vm_compute. reflexivity.
Defined.

Lemma construct_features_padding_trails_witness :
  construct_features
    (task 0 two_words ["false"; "true"]%string 8 word_tokenizer false None)
    [] = Ret (two_words_features, []) ∧
  ∃ tokens segs,
    assemble
      (task 0 two_words ["false"; "true"]%string 8 word_tokenizer false None)
      [] = Ret (tokens, segs, []) ∧
    (Z.of_nat (length tokens) ≤ 8)%Z ∧
    input_mask two_words_features
      = replicate (length tokens) 1%Z
          ++ replicate (Z.to_nat 8 - length tokens) 0%Z ∧
    (∀ i, i < length tokens → input_mask two_words_features !! i = Some 1%Z) ∧
    (∀ i, length tokens ≤ i → i < Z.to_nat 8 →
          input_ids two_words_features !! i = Some 0%Z ∧
          input_mask two_words_features !! i = Some 0%Z ∧
          segment_ids two_words_features !! i = Some 0%Z).
Proof.
  split; [vm_compute; reflexivity|].
  apply (construct_features_padding_trails
           (task 0 two_words ["false"; "true"]%string 8 word_tokenizer
              false None) [] two_words_features []).
  vm_compute. reflexivity.
Defined.

(** *** The assembler returns *)

Lemma permutation_returns {A} (tokens : list A) (pn : option Z) (g : rng) :
  (∀ w, pn = Some w → (1 ≤ w)%Z) →
  ∃ tokens' g', permutation tokens pn g = Ret (tokens', g').
Proof.
  intros Hpn. destruct pn as [w|].
  - destruct (permutation_positive_width tokens w g) as (n & g' & -> & _);
      [by apply Hpn|]. by eexists _, _.
  - by exists tokens, g.
Qed.

(** After the truncation the token stream, markers included, fits. *)
Lemma truncate_tokens_fits (L : Z) tokens_a tokens_b :
  (3 ≤ L)%Z →
  ∃ ta tb,
    truncate_tokens L tokens_a tokens_b = Ret (ta, tb) ∧
    (Z.of_nat (length (mark_segments ta tb).1) ≤ L)%Z.
Proof.
  intros HL. unfold truncate_tokens.
  destruct tokens_b as [[|t tb]|].
  - destruct (Z.ltb_spec (L - 2) (Z.of_nat (length tokens_a))).
    + eexists _, _. split; [done|]. cbn.
      rewrite length_app. cbn. pose proof (py_slice_prefix tokens_a (L - 2)) as ->; [|lia].
      rewrite length_take. lia.
    + eexists _, _. split; [done|]. cbn. rewrite length_app. cbn. lia.
  - destruct (truncate_loop_total (S (length tokens_a + length (t :: tb)))
                tokens_a (t :: tb) (L - 3) [])
      as (a' & b' & tr & Hrun & _ & _ & Hle); [lia..|].
    unfold _truncate_seq_pair, truncate_trace. rewrite Hrun. cbn.
    eexists _, _. split; [done|].
    unfold mark_segments. destruct b' as [|t' b']; cbn [fst].
    + rewrite !length_app. cbn [length] in *. lia.
    + rewrite !length_app. cbn [length] in *. lia.
  - destruct (Z.ltb_spec (L - 2) (Z.of_nat (length tokens_a))).
    + eexists _, _. split; [done|]. cbn.
      rewrite length_app. cbn. pose proof (py_slice_prefix tokens_a (L - 2)) as ->; [|lia].
      rewrite length_take. lia.
    + eexists _, _. split; [done|]. cbn. rewrite length_app. cbn. lia.
Qed.

(** With room for the markers, a width that is null or at least 1, a
    tokenizer that gives one id per token, and a label the map knows (an id
    with a hyphen in inference mode), [construct_features] returns a
    record: no assertion fails. *)
Lemma construct_features_returns inp g :
  (3 ≤ max_seq_length inp)%Z →
  (∀ w, permute_ngrams inp = Some w → (1 ≤ w)%Z) →
  (∀ ts, length (convert_tokens_to_ids (tokenizer inp) ts) = length ts) →
  (if predict inp
   then is_Some (split "-" (guid (example inp)) !! 1)
   else is_Some (label (example inp) ≫= (label_map inp !!.))) →
  ∃ r g', construct_features inp g = Ret (r, g').
Proof.
  intros HL Hpn Hids Hlab. unfold construct_features, assemble.
  destruct (permutation_returns
              (tokenize (tokenizer inp) (text_a (example inp)))
              (permute_ngrams inp) g Hpn) as (ta & g1 & ->).
  cbn.
  assert (∃ tb g2, tokenize_text_b inp g1 = Ret (tb, g2)) as (tb & g2 & ->).
  { unfold tokenize_text_b. destruct (text_b (example inp)) as [[|c s]|].
    - by eexists _, _.
    - destruct (permutation_returns (tokenize (tokenizer inp) (String c s))
                  (permute_ngrams inp) g1 Hpn) as (tb & g2 & ->).
      by eexists _, _.
    - by eexists _, _. }
  cbn.
  destruct (truncate_tokens_fits (max_seq_length inp) ta tb HL)
    as (ta' & tb' & -> & Hfit).
  cbn.
  pose proof (mark_segments_length ta' tb') as Hseg.
  destruct (mark_segments ta' tb') as [tokens segs]. cbn in *.
  unfold pad_count. rewrite !length_app, !length_replicate, Hids, Hseg.
  assert (Z.of_nat (length tokens
            + Z.to_nat (max_seq_length inp - Z.of_nat (length tokens)))
          = max_seq_length inp) as -> by lia.
  rewrite Z.eqb_refl. cbn.
  destruct (predict inp).
  - destruct Hlab as [aid Haid]. unfold index. rewrite Haid. cbn.
    by eexists _, _.
  - destruct Hlab as [i Hi]. unfold lookup_label. rewrite Hi. cbn.
    by eexists _, _.
Qed.

(** ** Inference mode: the record id *)

Section record_id.
Import SemevalOfficialProcessor.

Lemma official_guid_split (a : article) s :
  attr_id a = Some s →
  split "-" (guid (make_example "inference" a))
    = "inference"%string :: split "-" s.
Proof.
  intros Hs. unfold make_example. cbn [guid]. rewrite Hs.
  change ("inference" +:+ "-" +:+ format_s (Some s))
    with ("inference" +:+ String "-" s).
  by apply split_prefix.
Qed.

Lemma split_go_head sep cur s :
  ∃ p ps, split_go sep cur s = p :: ps.
Proof.
  revert cur. induction s as [|c s IH]; intros cur; cbn [split_go].
  - by eexists _, _.
  - case_decide; [by eexists _, _|apply IH].
Qed.

(** In inference mode the record has no label id, and its record id is
    the first piece of the article's id when that is split at its
    hyphens. *)
Lemma official_record_id_first_piece (a : article) s i labels L tk pn g r g' :
  attr_id a = Some s →
  construct_features
    (task i (make_example "inference" a) labels L tk true pn) g
    = Ret (r, g') →
  label_id r = None ∧ article_id r = head (split "-" s).
Proof.
  intros Hs (tokens & segs & H)%construct_features_Ret.
  cbn zeta in H. destruct H as (_ & _ & _ & _ & _ & _ & _ & H).
  cbn [task predict example] in H. destruct H as (Hlab & aid & Haid & Hr).
  split; [done|].
  rewrite (official_guid_split a s Hs) in Haid.
  rewrite Hr, <-Haid. by destruct (split "-" s).
Qed.

(** An id without a hyphen is carried through as it is. *)
Lemma official_record_id_no_hyphen (a : article) s i labels L tk pn g r g' :
  attr_id a = Some s → contains "-" s = false →
  construct_features
    (task i (make_example "inference" a) labels L tk true pn) g
    = Ret (r, g') →
  label_id r = None ∧ article_id r = Some s.
Proof.
  intros Hs Hno H.
  destruct (official_record_id_first_piece a s _ _ _ _ _ _ _ _ Hs H)
    as [? ->].
  by rewrite split_no_sep.
Qed.

(** C9 (the code departs from the claim): an article of the inference
    corpus whose id is [12-34] becomes an example with guid
    [inference-12-34], and the record built from it in inference mode
    has no label id and the record id [12], not the article's id. *)
Theorem official_record_id_cut_at_hyphen :
  attr_id hyphen_article = Some "12-34"%string ∧
  guid (make_example "inference" hyphen_article) = "inference-12-34"%string ∧
  ∃ r,
    construct_features
      (task 0 (make_example "inference" hyphen_article) get_labels 8
         word_tokenizer true None) [] = Ret (r, []) ∧
    label_id r = None ∧
    article_id r = Some "12"%string ∧
    article_id r ≠ attr_id hyphen_article.
Proof.
  split_and!; [reflexivity..|].
  eexists. split; [vm_compute; reflexivity|].
  cbn. split_and!; done.
Qed.
End record_id.

(** ** convert_examples_to_features *)

(** With a null width the assembler neither reads nor moves the
    generator. *)
Lemma assemble_null_width inp g :
  permute_ngrams inp = None →
  assemble inp g = (r ← assemble inp []; mret (r.1, g)).
Proof.
  intros Hpn. unfold assemble, tokenize_text_b.
  rewrite Hpn. cbn [permutation].
  cbv [mbind outcome_bind mret outcome_ret].
  destruct (text_b (example inp)) as [[|c s]|];
    (match goal with
     | |- context [truncate_tokens ?a ?b ?c] =>
         destruct (truncate_tokens a b c) as [[ta tb']| |]; [|done..]
     end);
    by destruct (mark_segments ta tb').
Qed.

Lemma construct_features_null_width inp g :
  permute_ngrams inp = None →
  construct_features inp g = (r ← construct_features inp []; mret (r.1, g)).
Proof.
  intros Hpn. unfold construct_features.
  rewrite (assemble_null_width inp g Hpn).
  destruct (assemble inp []) as [[[tokens segs] g0]| |]; [|done..].
  cbv [mbind outcome_bind mret outcome_ret fst].
  repeat match goal with
  | |- context [assert ?c] => destruct (assert c); [|done..]
  end.
  destruct (predict inp).
  - by destruct (index _ 1).
  - by destruct (lookup_label _ _).
Qed.

Section pool_facts.
Context {T R : Type}.
Implicit Types (f : T → rng → outcome (R * rng)) (p : pool).

(** The results are as many as the tasks, and each is what [f] returns
    for the task at its place, from some state of a generator. *)
Lemma pool_imap_aligned p f tasks i st rs :
  pool_imap p f tasks i st = Ret rs →
  Forall2 (λ t r, ∃ g g', f t g = Ret (r, g')) tasks rs.
Proof.
  revert i st rs. induction tasks as [|t tasks IH]; intros i st rs H.
  - cbv [pool_imap mret outcome_ret] in H. simplify_eq. constructor.
  - cbn [pool_imap] in H.
    destruct (f t (st (worker_of p i))) as [[r g']| |] eqn:Hf; [|done..].
    cbn in H.
    destruct (pool_imap p f tasks (S i) _) as [rs'| |] eqn:Hrs; [|done..].
    cbv [mbind outcome_bind mret outcome_ret] in H. simplify_eq.
    constructor; [by eexists _, _|by eapply IH].
Qed.

(** A function that leaves the generators alone on the tasks at hand is
    mapped the same way by every pool. *)
Lemma pool_imap_pure p f (h : T → outcome R) tasks i st :
  (∀ t, t ∈ tasks → ∀ g, f t g = (r ← h t; mret (r, g))) →
  pool_imap p f tasks i st = mapM h tasks.
Proof.
  revert i st.
  induction tasks as [|t tasks IH]; intros i st Hf; [done|].
  cbn [pool_imap mapM]. rewrite Hf by left.
  destruct (h t) as [r| |]; cbn; [|done..].
  rewrite IH; [done|]. intros t' Ht'. apply Hf. by right.
Qed.
End pool_facts.

(** One worker is the sequential map. *)
Lemma pool_imap_one_worker p tasks i st :
  processes p = 1 →
  pool_imap p construct_features tasks i st = sequential_map tasks (st 0).
Proof.
  intros Hp. revert i st.
  induction tasks as [|t tasks IH]; intros i st; [done|].
  cbn [pool_imap sequential_map].
  assert (worker_of p i = 0) as ->.
  { unfold worker_of. rewrite Hp. apply Nat.mod_1_r. }
  destruct (construct_features t (st 0)) as [[r g']| |]; cbn; [|done..].
  by rewrite IH, fn_lookup_insert.
Qed.

(** With a null width every pool maps the assembler like every other. *)
Lemma pool_imap_null_width p tasks i st :
  (∀ t, t ∈ tasks → permute_ngrams t = None) →
  pool_imap p construct_features tasks i st
    = mapM (λ t, r ← construct_features t []; mret r.1) tasks.
Proof.
  intros Hpn. apply pool_imap_pure. intros t Ht g.
  rewrite construct_features_null_width by by apply Hpn.
  by destruct (construct_features t []) as [[r g']| |].
Qed.

Lemma tasks_width examples label_list L tk pred pn t :
  t ∈ imap (λ i ex, task i ex label_list L tk pred pn) examples →
  permute_ngrams t = pn.
Proof. by intros (i & ex & -> & _)%elem_of_lookup_imap. Qed.

(** Each result is what [f] returns for the task at its place, started
    with the generator of the task's worker as that worker's earlier tasks
    have left it. *)
Lemma pool_imap_generator {T R : Type} (p : pool)
    (f : T → rng → outcome (R * rng)) tasks i st rs :
  pool_imap p f tasks i st = Ret rs →
  length rs = length tasks ∧
  ∀ k t, tasks !! k = Some t →
    ∃ r g',
      rs !! k = Some r ∧
      f t (generator_after p f (worker_of p (i + k)) (take k tasks) i
             (st (worker_of p (i + k)))) = Ret (r, g').
Proof.
  revert i st rs. induction tasks as [|t0 tasks IH]; intros i st rs H.
  - cbv [pool_imap mret outcome_ret] in H. simplify_eq.
    split; [done|]. intros k t Hk. by rewrite lookup_nil in Hk.
  - cbn [pool_imap] in H.
    destruct (f t0 (st (worker_of p i))) as [[r0 g0]| |] eqn:Hf; [|done..].
    cbn in H.
    destruct (pool_imap p f tasks (S i) _) as [rs'| |] eqn:Hrs; [|done..].
    cbv [mbind outcome_bind mret outcome_ret] in H. simplify_eq.
    destruct (IH _ _ _ Hrs) as [Hlen Hall].
    split; [cbn; lia|].
    intros [|k] t Hk; cbn in Hk.
    + simplify_eq. exists r0, g0. rewrite Nat.add_0_r. by cbn.
    + destruct (Hall k t Hk) as (r & g' & Hr & Hrun).
      exists r, g'. split; [done|].
      replace (i + S k) with (S i + k) by lia.
      cbn [take generator_after].
      destruct (decide (worker_of p i = worker_of p (S i + k))) as [Heq|Hne].
      * rewrite <-Heq, Hf. rewrite <-Heq in Hrun.
        by rewrite fn_lookup_insert in Hrun.
      * by rewrite fn_lookup_insert_ne in Hrun.
Qed.

(** C4, as the code has it: for every pool the records come out in the
    order of the examples, one per example, each the assembler's result
    for the example at its place, computed from the generator of the
    worker that ran it as that worker's earlier tasks left it; and with a
    null chunk width the output is the sequential map of the assembler
    over the examples, the same for every pool, whatever its number of
    workers. *)
Theorem convert_aligned_and_pool_independent_at_null_width
    (p : pool) (examples : list InputExample) (label_list : list string)
    (L : Z) (tk : Tokenizer) (pred : bool) :
  (∀ pn features,
     convert_examples_to_features p examples label_list L tk pred pn
       = Ret features →
     length features = length examples ∧
     ∀ i ex, examples !! i = Some ex →
       ∃ r g',
         features !! i = Some r ∧
         construct_features (task i ex label_list L tk pred pn)
           (generator_at p construct_features
              (imap (λ i ex, task i ex label_list L tk pred pn) examples) i)
           = Ret (r, g')) ∧
  (∀ g,
     convert_examples_to_features p examples label_list L tk pred None
       = sequential_map
           (imap (λ i ex, task i ex label_list L tk pred None) examples) g) ∧
  (∀ p',
     convert_examples_to_features p examples label_list L tk pred None
       = convert_examples_to_features p' examples label_list L tk pred None).
Proof.
  split_and!.
  - intros pn features H. unfold convert_examples_to_features in H.
    apply pool_imap_generator in H as [Hlen Hall]. split.
    + by rewrite length_imap in Hlen.
    + intros i ex Hex.
      destruct (Hall i (task i ex label_list L tk pred pn))
        as (r & g' & Hr & Hrun).
      { by rewrite list_lookup_imap, Hex. }
      by exists r, g'.
  - intros g. unfold convert_examples_to_features.
    rewrite pool_imap_null_width by apply tasks_width.
    rewrite <-(pool_imap_one_worker (one_worker g) _ 0 (λ _, g)) by done.
    symmetry. apply pool_imap_null_width, tasks_width.
  - intros p'. unfold convert_examples_to_features.
    rewrite !pool_imap_null_width by apply tasks_width. done.
Qed.

Lemma convert_aligned_and_pool_independent_at_null_width_witness :
  ∃ features,
    convert_examples_to_features (two_workers late_one late_one)
      late_examples ["false"; "true"]%string 8 word_tokenizer false
      (Some 1%Z) = Ret features ∧
    (length features = length late_examples ∧
     ∀ i ex, late_examples !! i = Some ex →
       ∃ r g',
         features !! i = Some r ∧
         construct_features
           (task i ex ["false"; "true"]%string 8 word_tokenizer false
              (Some 1%Z))
           (generator_at (two_workers late_one late_one) construct_features
              (imap (λ i ex, task i ex ["false"; "true"]%string 8
                               word_tokenizer false (Some 1%Z))
                 late_examples) i)
           = Ret (r, g')) ∧
    length late_examples = 101 ∧
    generator_at (two_workers late_one late_one) construct_features
      (imap (λ i ex, task i ex ["false"; "true"]%string 8
                       word_tokenizer false (Some 1%Z))
         late_examples) 99 = [0; 1] ∧
    generator_at (two_workers late_one late_one) construct_features
      (imap (λ i ex, task i ex ["false"; "true"]%string 8
                       word_tokenizer false (Some 1%Z))
         late_examples) 100 = late_one.
Proof.
  eexists. split; [vm_compute; reflexivity|].
  split; [|split_and!; vm_compute; reflexivity].
  apply (proj1 (convert_aligned_and_pool_independent_at_null_width
                  (two_workers late_one late_one) late_examples
                  ["false"; "true"]%string 8 word_tokenizer false)
           (Some 1%Z)).
  vm_compute. reflexivity.
Defined.

(** C4, as the claim words it, fails with a chunk width: on 101 two-word
    examples and width 1, one worker and two workers that start from the
    same generator return different records for the last example, the
    only one of the second chunk.  The single worker reaches it after a
    hundred draws and leaves its two tokens in place; the second of two
    workers reaches it with its first draw and exchanges them. *)
Lemma convert_one_worker_differs_from_two_workers :
  let examples := SemevalProcessor._create_examples hundred_and_one in
  let run p :=
    convert_examples_to_features p examples ["false"; "true"]%string 8
      word_tokenizer false (Some 1%Z) in
  length examples = 101 ∧
  ∃ fs1 fs2,
    run (one_worker late_one) = Ret fs1 ∧
    run (two_workers late_one late_one) = Ret fs2 ∧
    input_ids <$> fs1 !! 100 = Some [5; 1; 2; 5; 0; 0; 0; 0]%Z ∧
    input_ids <$> fs2 !! 100 = Some [5; 2; 1; 5; 0; 0; 0; 0]%Z ∧
    run (one_worker late_one) ≠ run (two_workers late_one late_one) ∧
    run (two_workers late_one late_one)
      ≠ sequential_map
          (imap (λ i ex, task i ex ["false"; "true"]%string 8
                           word_tokenizer false (Some 1%Z)) examples)
          late_one.
Proof.
  cbv zeta. split; [vm_compute; reflexivity|].
  eexists _, _.
  split; [vm_compute; reflexivity|].
  split; [vm_compute; reflexivity|].
  split; [vm_compute; reflexivity|].
  split; [vm_compute; reflexivity|].
  split.
  - intros Heq.
    apply (f_equal (λ o, match o with
                         | Ret fs => input_ids <$> fs !! 100
                         | _ => None
                         end)) in Heq.
    vm_compute in Heq. discriminate Heq.
  - intros Heq.
    apply (f_equal (λ o, match o with
                         | Ret fs => input_ids <$> fs !! 100
                         | _ => None
                         end)) in Heq.
    vm_compute in Heq. discriminate Heq.
Qed.


(** * Further properties of the code *)

(** ** _truncate_seq_pair: what is left of the two sequences *)

Section truncate_kept.
Context {A : Type}.
Implicit Types a b : list A.

Lemma removelast_take a : removelast a = take (length a - 1) a.
Proof.
  rewrite removelast_firstn_len. f_equal. lia.
Qed.

(** Below a budget of 0 the loop empties both lists and then pops the
    empty [tokens_b]. *)
Lemma truncate_loop_negative fuel a b (m : Z) log :
  (m < 0)%Z → length a + length b < fuel →
  truncate_loop fuel a b m log = Raise IndexError.
Proof.
  intros Hm. revert a b log.
  induction fuel as [|fuel IH]; intros a b log Hfuel; [lia|].
  destruct (truncate_cases a b m) as [?|[[??]|[(?&?&?)|(?&->&->)]]].
  - lia.
  - rewrite truncate_loop_pop_a by done.
    apply IH. rewrite length_removelast. lia.
  - rewrite truncate_loop_pop_b by done.
    assert (0 < length b) by (destruct b; [done|simpl; lia]).
    apply IH. rewrite length_removelast. lia.
  - by rewrite truncate_loop_raise.
Qed.

Lemma kept_a_fits (la lb : nat) (m : Z) :
  (Z.of_nat (la + lb) ≤ m)%Z → kept_a la lb m = la ∧ kept_b la lb m = lb.
Proof.
  intros H. unfold kept_b, kept_a.
  destruct (Z.leb_spec (Z.of_nat (la + lb)) m); [done|lia].
Qed.

Lemma kept_le (la lb : nat) (m : Z) :
  kept_a la lb m ≤ la ∧ kept_b la lb m ≤ lb.
Proof.
  unfold kept_b, kept_a.
  pose proof (Z.mul_div_le (m + 1) 2).
  pose proof (Z.mul_succ_div_gt (m + 1) 2).
  destruct (Z.leb_spec (Z.of_nat (la + lb)) m); lia.
Qed.

Lemma kept_a_pop_a (la lb : nat) (m : Z) :
  (0 ≤ m)%Z → (m < Z.of_nat (la + lb))%Z → lb < la →
  kept_a la lb m = kept_a (la - 1) lb m `min` (la - 1) ∧
  kept_b la lb m = kept_b (la - 1) lb m.
Proof.
  intros Hm Hgt Hlt. unfold kept_b, kept_a.
  pose proof (Z.mul_div_le (m + 1) 2).
  pose proof (Z.mul_succ_div_gt (m + 1) 2).
  destruct (Z.leb_spec (Z.of_nat (la + lb)) m); [lia|].
  destruct (Z.leb_spec (Z.of_nat (la - 1 + lb)) m); lia.
Qed.

Lemma kept_a_pop_b (la lb : nat) (m : Z) :
  (0 ≤ m)%Z → (m < Z.of_nat (la + lb))%Z → la ≤ lb →
  kept_a la lb m = kept_a la (lb - 1) m ∧
  kept_b la lb m = kept_b la (lb - 1) m `min` (lb - 1).
Proof.
  intros Hm Hgt Hlt. unfold kept_b, kept_a.
  pose proof (Z.mul_div_le (m + 1) 2).
  pose proof (Z.mul_succ_div_gt (m + 1) 2).
  destruct (Z.leb_spec (Z.of_nat (la + lb)) m); [lia|].
  destruct (Z.leb_spec (Z.of_nat (la + (lb - 1))) m); lia.
Qed.

Lemma truncate_loop_kept fuel a b (m : Z) log :
  (0 ≤ m)%Z → length a + length b < fuel →
  ∃ tr,
    truncate_loop fuel a b m log =
      Ret (take (kept_a (length a) (length b) m) a,
           take (kept_b (length a) (length b) m) b, tr).
Proof.
  intros Hm. revert a b log.
  induction fuel as [|fuel IH]; intros a b log Hfuel; [lia|].
  destruct (truncate_cases a b m) as [?|[[??]|[(?&?&?)|(?&->&->)]]];
    [| | |lia].
  - rewrite truncate_loop_stop by done.
    destruct (kept_a_fits (length a) (length b) m) as [-> ->]; [done|].
    exists log. by rewrite !take_ge by lia.
  - rewrite truncate_loop_pop_a by done.
    destruct (IH (removelast a) b (log ++ [SideA])) as [tr ->].
    { rewrite length_removelast. lia. }
    exists tr. rewrite length_removelast.
    destruct (kept_a_pop_a (length a) (length b) m) as [-> ->]; [done..|].
    by rewrite removelast_take, take_take.
  - rewrite truncate_loop_pop_b by done.
    assert (0 < length b) by (destruct b; [done|simpl; lia]).
    destruct (IH a (removelast b) (log ++ [SideB])) as [tr ->].
    { rewrite length_removelast. lia. }
    exists tr. rewrite length_removelast.
    destruct (kept_a_pop_b (length a) (length b) m) as [-> ->]; [done..|].
    by rewrite removelast_take, take_take.
Qed.

Lemma truncate_seq_pair_kept a b (m : Z) :
  (0 ≤ m)%Z →
  _truncate_seq_pair a b m =
    Ret (take (kept_a (length a) (length b) m) a,
         take (kept_b (length a) (length b) m) b).
Proof.
  intros Hm. unfold _truncate_seq_pair, truncate_trace.
  destruct (truncate_loop_kept (S (length a + length b)) a b m [] Hm)
    as [tr ->]; [lia|]. done.
Qed.

(** X1: with a negative budget [_truncate_seq_pair] raises [IndexError],
    whatever the two sequences are. *)
Theorem truncate_seq_pair_negative_budget_raises a b (m : Z) :
  (m < 0)%Z → _truncate_seq_pair a b m = Raise IndexError.
Proof.
  intros Hm. unfold _truncate_seq_pair, truncate_trace.
  by rewrite truncate_loop_negative by (done || lia).
Qed.

(** X2: with a budget [m >= 0] the call returns prefixes of the two
    sequences, of the lengths [kept_a] and [kept_b]; together they hold
    [min (len A + len B) m] tokens. *)
Theorem truncate_seq_pair_returns_prefixes a b (m : Z) :
  (0 ≤ m)%Z →
  _truncate_seq_pair a b m =
    Ret (take (kept_a (length a) (length b) m) a,
         take (kept_b (length a) (length b) m) b) ∧
  kept_a (length a) (length b) m ≤ length a ∧
  kept_b (length a) (length b) m ≤ length b ∧
  Z.of_nat (kept_a (length a) (length b) m + kept_b (length a) (length b) m)
    = Z.min (Z.of_nat (length a + length b)) m.
Proof.
  intros Hm. split; [by apply truncate_seq_pair_kept|].
  unfold kept_b, kept_a.
  pose proof (Z.mul_div_le (m + 1) 2).
  pose proof (Z.mul_succ_div_gt (m + 1) 2).
  destruct (Z.leb_spec (Z.of_nat (length a + length b)) m); lia.
Qed.

(** X3: a sequence that is no longer than half the budget is returned
    whole: [B] when [2 len B <= m], [A] when [2 len A <= m + 1]. *)
Theorem truncate_seq_pair_keeps_short_side a b (m : Z) :
  (0 ≤ m)%Z →
  ((2 * Z.of_nat (length b) ≤ m)%Z →
     ∃ a', _truncate_seq_pair a b m = Ret (a', b)) ∧
  ((2 * Z.of_nat (length a) ≤ m + 1)%Z →
     ∃ b', _truncate_seq_pair a b m = Ret (a, b')).
Proof.
  intros Hm. rewrite truncate_seq_pair_kept by done. split; intros Hhalf.
  - eexists. do 2 f_equal. apply take_ge. unfold kept_b, kept_a.
    pose proof (Z.mul_div_le (m + 1) 2).
    pose proof (Z.mul_succ_div_gt (m + 1) 2).
    destruct (Z.leb_spec (Z.of_nat (length a + length b)) m); lia.
  - eexists. f_equal. f_equal. apply take_ge. unfold kept_a.
    pose proof (Z.mul_div_le (m + 1) 2).
    pose proof (Z.mul_succ_div_gt (m + 1) 2).
    destruct (Z.leb_spec (Z.of_nat (length a + length b)) m); lia.
Qed.
End truncate_kept.

Lemma truncate_seq_pair_negative_budget_raises_witness :
  _truncate_seq_pair [1; 2]%Z [3]%Z (-1) = Raise IndexError.
Proof.
  apply (truncate_seq_pair_negative_budget_raises [1; 2]%Z [3]%Z (-1)). lia.
Defined.

Lemma truncate_seq_pair_returns_prefixes_witness :
  _truncate_seq_pair [1; 2; 3; 4; 5; 6]%Z [7; 8; 9]%Z 5 =
    Ret (take (kept_a 6 3 5) [1; 2; 3; 4; 5; 6]%Z,
         take (kept_b 6 3 5) [7; 8; 9]%Z) ∧
  kept_a 6 3 5 ≤ 6 ∧ kept_b 6 3 5 ≤ 3 ∧
  Z.of_nat (kept_a 6 3 5 + kept_b 6 3 5) = Z.min (Z.of_nat (6 + 3)) 5.
Proof.
  apply (truncate_seq_pair_returns_prefixes
           [1; 2; 3; 4; 5; 6]%Z [7; 8; 9]%Z 5). lia.
Defined.

Lemma truncate_seq_pair_keeps_short_side_witness :
  (∃ a', _truncate_seq_pair [1; 2; 3; 4; 5; 6]%Z [7; 8]%Z 5 = Ret (a', [7; 8]%Z))
  ∧ (∃ b', _truncate_seq_pair [1; 2; 3]%Z [4; 5; 6; 7; 8]%Z 5
             = Ret ([1; 2; 3]%Z, b')).
Proof.
  split.
  - apply (proj1 (truncate_seq_pair_keeps_short_side
                    [1; 2; 3; 4; 5; 6]%Z [7; 8]%Z 5 ltac:(lia))).
    simpl. lia.
  - apply (proj2 (truncate_seq_pair_keeps_short_side
                    [1; 2; 3]%Z [4; 5; 6; 7; 8]%Z 5 ltac:(lia))).
    simpl. lia.
Defined.

(** ** permutation: what the augmentor keeps *)

Section permutation_kept.
Context {A : Type}.
Implicit Types tokens : list A.

Lemma concat_Permutation_proper (xs ys : list (list A)) :
  xs ≡ₚ ys → concat xs ≡ₚ concat ys.
Proof.
  induction 1 as [|x xs ys _ IH|x y xs|xs ys zs _ IH1 _ IH2]; simpl.
  - done.
  - by rewrite IH.
  - rewrite !app_assoc. f_equiv. apply Permutation_app_comm.
  - by etrans.
Qed.

Lemma chunks_whole tokens (w : nat) :
  0 < length tokens → length tokens ≤ w → chunks w tokens = [tokens].
Proof.
  intros Hpos Hle. unfold chunks.
  assert ((length tokens + w - 1) `div` w = 1) as ->.
  { symmetry. apply (Nat.div_unique _ _ _ (length tokens - 1)); lia. }
  cbn [seq fmap list_fmap]. rewrite Nat.mul_0_l, drop_0.
  by rewrite take_ge by lia.
Qed.

Lemma chunks_nil (w : nat) : 1 ≤ w → chunks w (@nil A) = [].
Proof.
  intros Hw. unfold chunks. cbn [length].
  replace (0 + w - 1) with (w - 1) by lia.
  by rewrite Nat.div_small by lia.
Qed.

(** X4: with a null width or a width of at least 1, [permutation] returns
    a rearrangement of its tokens: each token as often as before, so as
    many tokens as before. *)
Theorem permutation_rearranges_tokens tokens (pn : option Z) (g : rng) :
  (∀ w, pn = Some w → (1 ≤ w)%Z) →
  ∃ tokens' g',
    permutation tokens pn g = Ret (tokens', g') ∧
    tokens' ≡ₚ tokens ∧
    length tokens' = length tokens.
Proof.
  intros Hpn. destruct pn as [w|].
  - destruct (permutation_positive_width tokens w g)
      as (ngrams' & g' & -> & Hperm); [by apply Hpn|].
    assert (concat ngrams' ≡ₚ tokens) as Hp.
    { rewrite (concat_Permutation_proper _ _ Hperm).
      rewrite concat_chunks; [done|]. specialize (Hpn w eq_refl). lia. }
    exists (concat ngrams'), g'. split_and!; [done..|].
    by apply Permutation_length.
  - by exists tokens, g.
Qed.

(** X5: a width that is at least the number of tokens leaves the tokens in
    place and the generator untouched. *)
Theorem permutation_wide_chunk_is_identity tokens (w : Z) (g : rng) :
  (1 ≤ w)%Z → (Z.of_nat (length tokens) ≤ w)%Z →
  permutation tokens (Some w) g = Ret (tokens, g).
Proof.
  intros Hw Hle. unfold permutation.
  rewrite ngrams_loop_positive by done.
  destruct tokens as [|t tokens].
  - rewrite chunks_nil by lia. done.
  - rewrite chunks_whole by (cbn [length] in *; lia). done.
Qed.
End permutation_kept.

Lemma permutation_rearranges_tokens_witness :
  ∃ tokens' g',
    permutation ["a"; "b"; "c"; "d"; "e"]%string (Some 2%Z) [0; 1]
      = Ret (tokens', g') ∧
    tokens' ≡ₚ ["a"; "b"; "c"; "d"; "e"]%string ∧
    length tokens' = length ["a"; "b"; "c"; "d"; "e"]%string.
Proof.
  apply (permutation_rearranges_tokens
           ["a"; "b"; "c"; "d"; "e"]%string (Some 2%Z) [0; 1]).
  intros w [= <-]. lia.
Defined.

Lemma permutation_wide_chunk_is_identity_witness :
  permutation ["a"; "b"; "c"]%string (Some 3%Z) [1; 1]
    = Ret (["a"; "b"; "c"]%string, [1; 1]).
Proof.
  apply (permutation_wide_chunk_is_identity ["a"; "b"; "c"]%string 3 [1; 1]).
  - lia.
  - simpl. lia.
Defined.

(** ** The label map *)

Lemma make_label_map_snoc (label_list : list string) (x : string) :
  make_label_map (label_list ++ [x])
    = <[x:=length label_list]> (make_label_map label_list).
Proof.
  unfold make_label_map. rewrite imap_app, foldl_app. cbn.
  by rewrite Nat.add_0_r.
Qed.

Lemma make_label_map_last (label_list : list string) (x : string) (i : nat) :
  make_label_map label_list !! x = Some i ↔
    label_list !! i = Some x ∧ ∀ j, i < j → label_list !! j ≠ Some x.
Proof.
  revert i. induction label_list as [|y l IH] using rev_ind; intros i.
  - unfold make_label_map. cbn. rewrite lookup_empty.
    split; [done|]. intros [Hi _]. by rewrite lookup_nil in Hi.
  - rewrite make_label_map_snoc. destruct (decide (y = x)) as [->|Hne].
    + rewrite lookup_insert_eq. split.
      * intros [= <-]. split; [by apply list_lookup_middle|].
        intros j Hj. rewrite lookup_ge_None_2; [done|].
        rewrite length_app. cbn. lia.
      * intros [Hi Hlast]. f_equal.
        apply lookup_snoc_Some in Hi as [[Hlt _]|[-> _]]; [|done].
        exfalso. apply (Hlast (length l) Hlt). by apply list_lookup_middle.
    + rewrite lookup_insert_ne by done. rewrite IH. split.
      * intros [Hi Hlast]. split.
        { rewrite lookup_app_l; [done|]. by eapply lookup_lt_Some. }
        intros j Hj [[_ Hl]|[_ ?]]%lookup_snoc_Some; [|done].
        by apply (Hlast j).
      * intros [Hi Hlast].
        apply lookup_snoc_Some in Hi as [[Hlt Hi]|[_ ?]]; [|done].
        split; [done|]. intros j Hj Hl. apply (Hlast j Hj).
        rewrite lookup_app_l; [done|]. by eapply lookup_lt_Some.
Qed.

(** X6: the label map built from [label_list] sends a label to the last
    position at which the list holds it, and holds nothing else; for a
    list without repetitions it is the inverse of indexing the list. *)
Theorem make_label_map_inverts_label_list (label_list : list string) :
  (∀ x i, make_label_map label_list !! x = Some i ↔
     label_list !! i = Some x ∧ ∀ j, i < j → label_list !! j ≠ Some x) ∧
  (NoDup label_list →
   ∀ x i, make_label_map label_list !! x = Some i ↔ label_list !! i = Some x).
Proof.
  split; [apply make_label_map_last|].
  intros Hnd x i. rewrite make_label_map_last. split; [by intros [? _]|].
  intros Hi. split; [done|]. intros j Hj Hx.
  pose proof (NoDup_lookup _ _ _ _ Hnd Hi Hx). lia.
Qed.

Lemma make_label_map_inverts_label_list_witness :
  NoDup ["false"; "true"]%string ∧
  (make_label_map ["false"; "true"]%string !! "true"%string = Some 1 ↔
   ["false"; "true"]%string !! 1 = Some "true"%string).
Proof.
  assert (NoDup ["false"; "true"]%string) as Hnd.
  { apply (bool_decide_unpack _). vm_compute. exact I. }
  split; [exact Hnd|].
  apply (proj2 (make_label_map_inverts_label_list ["false"; "true"]%string)
           Hnd "true"%string 1).
Defined.

(** ** construct_features: the shape of a record *)

Lemma mark_segments_shape tokens_a tokens_b :
  ∃ (n1 : nat) (tail : list string),
    mark_segments tokens_a tokens_b
      = (["[CLS]"%string] ++ tokens_a ++ ["[SEP]"%string] ++ tail,
         replicate (length tokens_a + 2) 0%Z ++ replicate n1 1%Z) ∧
    length tail = n1 ∧ n1 ≠ 1.
Proof.
  assert (∀ l : list string,
    [0%Z] ++ ((λ _, 0%Z) <$> l) ++ [0%Z] = replicate (length l + 2) 0%Z)
    as Hzero.
  { intros l. rewrite (const_fmap _ l 0%Z) by done.
    replace (length l + 2) with (S (length l + 1)) by lia.
    cbn. f_equal. by rewrite replicate_add. }
  unfold mark_segments. destruct tokens_b as [[|t tb]|].
  - exists 0, []. by rewrite Hzero, !app_nil_r.
  - exists (S (S (length tb))), ((t :: tb) ++ ["[SEP]"%string]).
    rewrite Hzero, (const_fmap _ (t :: tb) 1%Z) by done.
    split_and!.
    + f_equal; [by rewrite <-!app_assoc|].
      f_equal. change [1%Z] with (replicate 1 1%Z).
      rewrite <-replicate_add. f_equal. cbn [length]. lia.
    + rewrite length_app. cbn. lia.
    + done.
  - exists 0, []. by rewrite Hzero, !app_nil_r.
Qed.

Lemma assemble_shape inp g tokens segs g' :
  assemble inp g = Ret (tokens, segs, g') →
  ∃ (tokens_a tail : list string),
    tokens = ["[CLS]"%string] ++ tokens_a ++ ["[SEP]"%string] ++ tail ∧
    segs = replicate (length tokens_a + 2) 0%Z
             ++ replicate (length tail) 1%Z ∧
    length tail ≠ 1.
Proof.
  unfold assemble. intros H.
  destruct (permutation _ _ g) as [[tokens_a g1]| |]; [|done..].
  cbn in H.
  destruct (tokenize_text_b inp g1) as [[tokens_b g2]| |]; [|done..].
  cbn in H.
  destruct (truncate_tokens _ tokens_a tokens_b) as [[ta tb]| |]; [|done..].
  cbn in H.
  destruct (mark_segments_shape ta tb) as (n1 & tail & Hm & <- & Hn1).
  rewrite Hm in H. cbv [mret outcome_ret] in H. simplify_eq.
  by exists ta, tail.
Qed.




(** X8: the segment ids of a returned record are a run of at least two 0s
    (the first segment with its markers), then a run of 1s that is empty
    or at least two long (the second segment with its marker), then the
    0s of the padding. *)
Theorem construct_features_segment_runs inp g r g' :
  construct_features inp g = Ret (r, g') →
  ∃ n0 n1 : nat,
    2 ≤ n0 ∧ n1 ≠ 1 ∧
    (Z.of_nat (n0 + n1) ≤ max_seq_length inp)%Z ∧
    segment_ids r =
      replicate n0 0%Z ++ replicate n1 1%Z
        ++ replicate (Z.to_nat (max_seq_length inp) - (n0 + n1)) 0%Z.
Proof.
  intros (tokens & segs & Hasm & _ & _ & Hsegs & _ & _ & Hl3 & _)
    %construct_features_Ret.
  destruct (assemble_shape _ _ _ _ _ Hasm) as (ta & tail & _ & -> & Hn1).
  exists (length ta + 2), (length tail).
  rewrite Hsegs, !length_app, !length_replicate in Hl3.
  split_and!; [lia|done|lia|].
  rewrite Hsegs, <-app_assoc. do 3 f_equal. lia.
Qed.

(** X9: in training mode a returned record has no record id, and its
    label id is a position of the example's label in [label_list]. *)
Theorem construct_features_label_id_indexes_label
    i ex label_list L tk pn g r g' :
  construct_features (task i ex label_list L tk false pn) g = Ret (r, g') →
  article_id r = None ∧
  ∃ l k, label ex = Some l ∧ label_id r = Some k ∧ label_list !! k = Some l.
Proof.
  intros (tokens & segs & _ & _ & _ & _ & _ & _ & _ & H)
    %construct_features_Ret.
  cbn [task predict example label_map] in H.
  destruct H as (Hart & k & Hk & Hr). split; [done|].
  destruct (label ex) as [l|]; [|done]. cbn in Hk.
  apply make_label_map_last in Hk as [Hk _].
  by exists l, k.
Qed.


Lemma construct_features_segment_runs_witness :
  ∃ r g',
    construct_features
      (task 0 word_pair ["0"; "1"]%string 8 word_tokenizer false (Some 2%Z))
      [1; 0; 1] = Ret (r, g') ∧
    ∃ n0 n1 : nat,
      2 ≤ n0 ∧ n1 ≠ 1 ∧ (Z.of_nat (n0 + n1) ≤ 8)%Z ∧
      segment_ids r =
        replicate n0 0%Z ++ replicate n1 1%Z
          ++ replicate (Z.to_nat 8 - (n0 + n1)) 0%Z.
Proof.
  eexists _, _. split; [vm_compute; reflexivity|].
  apply (construct_features_segment_runs
           (task 0 word_pair ["0"; "1"]%string 8 word_tokenizer false
              (Some 2%Z)) [1; 0; 1] _ []).
  vm_compute. reflexivity.
Defined.

Lemma construct_features_label_id_indexes_label_witness :
  article_id two_words_features = None ∧
  ∃ l k, label two_words = Some l ∧ label_id two_words_features = Some k ∧
         ["false"; "true"]%string !! k = Some l.
Proof.
  apply (construct_features_label_id_indexes_label
           0 two_words ["false"; "true"]%string 8 word_tokenizer None []
           two_words_features []).
  vm_compute. reflexivity.
Defined.

(** ** construct_features: the errors of the two modes *)

Lemma make_label_map_is_Some (label_list : list string) (x : string) :
  is_Some (make_label_map label_list !! x) ↔ x ∈ label_list.
Proof.
  induction label_list as [|y l IH] using rev_ind.
  - unfold make_label_map. cbn. rewrite lookup_empty.
    split; [by intros [? ?]|by intros ?%elem_of_nil].
  - rewrite make_label_map_snoc, lookup_insert_is_Some, IH.
    rewrite elem_of_app, list_elem_of_singleton.
    destruct (decide (y = x)) as [->|?]; [by split; auto|].
    split; [intros [?|[_ ?]]; auto; done|intros [?|?]; auto; done].
Qed.

(** Once the arrays are built, what is left of the call is the label
    lookup, or the split of the guid. *)
Lemma construct_features_tail inp g :
  (3 ≤ max_seq_length inp)%Z →
  (∀ w, permute_ngrams inp = Some w → (1 ≤ w)%Z) →
  (∀ ts, length (convert_tokens_to_ids (tokenizer inp) ts) = length ts) →
  ∃ ids mask segs g',
    construct_features inp g =
      if predict inp then
        aid ← index (split "-" (guid (example inp))) 1;
        mret ({| input_ids := ids; input_mask := mask; segment_ids := segs;
                 label_id := None; article_id := Some aid |}, g')
      else
        k ← lookup_label (label_map inp) (label (example inp));
        mret ({| input_ids := ids; input_mask := mask; segment_ids := segs;
                 label_id := Some k; article_id := None |}, g').
Proof.
  intros HL Hpn Hids. unfold construct_features, assemble.
  destruct (permutation_returns
              (tokenize (tokenizer inp) (text_a (example inp)))
              (permute_ngrams inp) g Hpn) as (ta & g1 & ->).
  cbn.
  assert (∃ tb g2, tokenize_text_b inp g1 = Ret (tb, g2)) as (tb & g2 & ->).
  { unfold tokenize_text_b. destruct (text_b (example inp)) as [[|c s]|].
    - by eexists _, _.
    - destruct (permutation_returns (tokenize (tokenizer inp) (String c s))
                  (permute_ngrams inp) g1 Hpn) as (tb & g2 & ->).
      by eexists _, _.
    - by eexists _, _. }
  cbn.
  destruct (truncate_tokens_fits (max_seq_length inp) ta tb HL)
    as (ta' & tb' & -> & Hfit).
  cbn.
  pose proof (mark_segments_length ta' tb') as Hseg.
  destruct (mark_segments ta' tb') as [tokens segs]. cbn in *.
  unfold pad_count. rewrite !length_app, !length_replicate, Hids, Hseg.
  assert (Z.of_nat (length tokens
            + Z.to_nat (max_seq_length inp - Z.of_nat (length tokens)))
          = max_seq_length inp) as -> by lia.
  rewrite Z.eqb_refl. cbn.
  by eexists _, _, _, _.
Qed.

(** X10: in training mode, with the arrays built, an example without a
    label, or with a label that is not in [label_list], raises
    [KeyError]. *)
Theorem construct_features_unknown_label_raises
    i ex label_list L tk pn g :
  (3 ≤ L)%Z →
  (∀ w, pn = Some w → (1 ≤ w)%Z) →
  (∀ ts, length (convert_tokens_to_ids tk ts) = length ts) →
  (∀ l, label ex = Some l → l ∉ label_list) →
  construct_features (task i ex label_list L tk false pn) g = Raise KeyError.
Proof.
  intros HL Hpn Hids Hlab.
  destruct (construct_features_tail (task i ex label_list L tk false pn) g)
    as (ids & mask & segs & g' & ->); [done..|].
  cbn [task predict example label_map label]. unfold lookup_label.
  destruct (label ex) as [l|]; [|done]. cbn.
  destruct (make_label_map label_list !! l) as [k|] eqn:Hk; [|done].
  exfalso. apply (Hlab l eq_refl). apply make_label_map_is_Some. by eexists.
Qed.

(** X11: in inference mode an example whose guid holds no hyphen never
    gives a record; with the arrays built the call raises
    [IndexError]. *)
Theorem construct_features_guid_without_hyphen_raises inp g :
  predict inp = true →
  contains "-" (guid (example inp)) = false →
  (∀ r g', construct_features inp g ≠ Ret (r, g')) ∧
  ((3 ≤ max_seq_length inp)%Z →
   (∀ w, permute_ngrams inp = Some w → (1 ≤ w)%Z) →
   (∀ ts, length (convert_tokens_to_ids (tokenizer inp) ts) = length ts) →
   construct_features inp g = Raise IndexError).
Proof.
  intros Hpred Hno. split.
  - intros r g' (tokens & segs & H)%construct_features_Ret.
    cbn zeta in H. destruct H as (_ & _ & _ & _ & _ & _ & _ & H).
    rewrite Hpred in H. destruct H as (_ & aid & Haid & _).
    by rewrite split_no_sep in Haid.
  - intros HL Hpn Hids.
    destruct (construct_features_tail inp g) as (ids & mask & segs & g' & ->);
      [done..|].
    rewrite Hpred. by rewrite split_no_sep.
Qed.

Lemma pretty_N_go_no_hyphen (x : N) (s : string) :
  contains "-" s = false → contains "-" (pretty_N_go x s) = false.
Proof.
  revert s. induction (N.lt_wf_0 x) as [x _ IH]; intros s Hs.
  assert (x = 0 ∨ 0 < x)%N as [->|?] by lia.
  - by rewrite pretty_N_go_0.
  - rewrite pretty_N_go_step by done. apply IH.
    { by apply N.div_lt. }
    cbn [contains]. unfold pretty_N_char. by repeat case_match.
Qed.

(** The decimal numeral of a natural number holds no hyphen. *)
Lemma pretty_nat_no_hyphen (n : nat) : contains "-" (pretty n) = false.
Proof.
  unfold pretty, pretty_nat, pretty, pretty_N.
  case_decide; [done|]. by apply pretty_N_go_no_hyphen.
Qed.

Lemma construct_features_unknown_label_raises_witness :
  construct_features
    (task 0 (SemevalOfficialProcessor.make_example "inference" plain_article)
       ["false"; "true"]%string 8 word_tokenizer false None) []
    = Raise KeyError.
Proof.
  apply (construct_features_unknown_label_raises 0
           (SemevalOfficialProcessor.make_example "inference" plain_article)
           ["false"; "true"]%string 8 word_tokenizer None []).
  - lia.
  - intros w Hw. discriminate Hw.
  - intros ts. apply length_fmap.
  - intros l Hl. discriminate Hl.
Defined.

Lemma construct_features_guid_without_hyphen_raises_witness :
  (∀ r g',
     construct_features
       (task 0 two_words ["false"; "true"]%string 8 word_tokenizer true None)
       [] ≠ Ret (r, g')) ∧
  construct_features
    (task 0 two_words ["false"; "true"]%string 8 word_tokenizer true None)
    [] = Raise IndexError.
Proof.
  destruct (construct_features_guid_without_hyphen_raises
              (task 0 two_words ["false"; "true"]%string 8 word_tokenizer
                 true None) [] eq_refl eq_refl) as [Hnever Hraise].
  split; [exact Hnever|]. apply Hraise.
  - simpl. lia.
  - intros w Hw. discriminate Hw.
  - intros ts. apply length_fmap.
Defined.

(** ** Inference mode: the record id of every source's guid *)

Lemma format_guid_split (set_type x : string) :
  contains "-" set_type = false →
  split "-" (format_guid set_type x) = set_type :: split "-" x.
Proof.
  intros Hst. unfold format_guid.
  change (set_type +:+ "-" +:+ x) with (set_type +:+ String "-" x).
  by apply split_prefix.
Qed.

(** X12: in inference mode, for a guid [set_type-x] whose set type holds
    no hyphen, a returned record has no label id and its record id is the
    part of [x] before its first hyphen: [x] itself when [x] holds none,
    as the decimal row numbers of the table and line sources do. *)
Theorem construct_features_record_id_of_guid inp g r g' set_type x :
  predict inp = true →
  guid (example inp) = format_guid set_type x →
  contains "-" set_type = false →
  construct_features inp g = Ret (r, g') →
  label_id r = None ∧
  article_id r = head (split "-" x) ∧
  (contains "-" x = false → article_id r = Some x) ∧
  (∀ n : nat, x = pretty n → article_id r = Some (pretty n)).
Proof.
  intros Hpred Hguid Hst (tokens & segs & H)%construct_features_Ret.
  cbn zeta in H. destruct H as (_ & _ & _ & _ & _ & _ & _ & H).
  rewrite Hpred, Hguid, format_guid_split in H by done.
  destruct H as (Hlab & aid & Haid & Hr).
  assert (article_id r = head (split "-" x)) as Hhead.
  { rewrite Hr, <-Haid. by destruct (split "-" x). }
  split_and!; [done..| |].
  - intros Hx. by rewrite Hhead, split_no_sep.
  - intros n ->. by rewrite Hhead, split_no_sep by apply pretty_nat_no_hyphen.
Qed.

Lemma construct_features_record_id_of_guid_witness :
  ∃ r,
    construct_features
      (task 0 (SemevalOfficialProcessor.make_example "inference" plain_article)
         ["false"; "true"]%string 8 word_tokenizer true None) []
      = Ret (r, []) ∧
    label_id r = None ∧
    article_id r = head (split "-" "0000123") ∧
    (contains "-" "0000123" = false → article_id r = Some "0000123"%string) ∧
    (∀ n : nat, "0000123"%string = pretty n → article_id r = Some (pretty n)).
Proof.
  eexists. split; [vm_compute; reflexivity|].
  apply (construct_features_record_id_of_guid
           (task 0
              (SemevalOfficialProcessor.make_example "inference" plain_article)
              ["false"; "true"]%string 8 word_tokenizer true None)
           [] _ [] "inference" "0000123").
  - reflexivity.
  - reflexivity.
  - reflexivity.
  - vm_compute. reflexivity.
Defined.

(** ** construct_features: the token stream without augmentation *)

Lemma assemble_null_first inp g :
  permute_ngrams inp = None →
  assemble inp g =
    ('(tokens_b, g1) ← tokenize_text_b inp g;
     '(ta, tb) ← truncate_tokens (max_seq_length inp)
                   (tokenize (tokenizer inp) (text_a (example inp))) tokens_b;
     let '(tokens, segment_ids) := mark_segments ta tb in
     mret (tokens, segment_ids, g1)).
Proof. intros Hnull. unfold assemble. by rewrite Hnull. Qed.

(** X13: without augmentation and without a second text (none, an empty
    one, or one that gives no tokens), and with [max_seq_length >= 2], the
    token stream is the start marker, the first [max_seq_length - 2] tokens
    of the text, and the separator; all its segment ids are 0. *)
Theorem assemble_single_sequence_keeps_prefix inp g :
  let tokens_a := tokenize (tokenizer inp) (text_a (example inp)) in
  permute_ngrams inp = None →
  (2 ≤ max_seq_length inp)%Z →
  (∀ tb, text_b (example inp) = Some tb →
         tb = EmptyString ∨ tokenize (tokenizer inp) tb = []) →
  assemble inp g =
    Ret (["[CLS]"%string]
           ++ take (Z.to_nat (max_seq_length inp - 2)) tokens_a
           ++ ["[SEP]"%string],
         replicate
           (length tokens_a `min` Z.to_nat (max_seq_length inp - 2) + 2) 0%Z,
         g).
Proof.
  intros tokens_a Hnull HL Hb. rewrite assemble_null_first by done.
  fold tokens_a.
  assert (∃ tb, tokenize_text_b inp g = Ret (tb, g) ∧ (tb = None ∨ tb = Some []))
    as (tb & -> & Htb).
  { unfold tokenize_text_b. rewrite Hnull.
    destruct (text_b (example inp)) as [[|c s]|] eqn:Hs.
    - exists None. auto.
    - destruct (Hb _ eq_refl) as [?| ->]; [done|].
      exists (Some []). auto.
    - exists None. auto. }
  cbn.
  assert (truncate_tokens (max_seq_length inp) tokens_a tb
          = Ret (take (Z.to_nat (max_seq_length inp - 2)) tokens_a, tb)) as ->.
  { unfold truncate_tokens.
    assert ((if (max_seq_length inp - 2 <? Z.of_nat (length tokens_a))%Z
             then mret (py_slice tokens_a 0 (max_seq_length inp - 2), tb)
             else mret (tokens_a, tb))
            = Ret (take (Z.to_nat (max_seq_length inp - 2)) tokens_a, tb))
      as Hcut.
    { destruct (Z.ltb_spec (max_seq_length inp - 2)
                  (Z.of_nat (length tokens_a))).
      - by rewrite py_slice_prefix by lia.
      - by rewrite take_ge by lia. }
    by destruct Htb as [-> | ->]. }
  cbn.
  assert (mark_segments (take (Z.to_nat (max_seq_length inp - 2)) tokens_a) tb
          = (["[CLS]"%string]
               ++ take (Z.to_nat (max_seq_length inp - 2)) tokens_a
               ++ ["[SEP]"%string],
             replicate
               (length tokens_a `min` Z.to_nat (max_seq_length inp - 2) + 2)
               0%Z)) as ->; [|done].
  destruct (mark_segments_shape
              (take (Z.to_nat (max_seq_length inp - 2)) tokens_a) tb)
    as (n1 & tail & Hm & Htail & _).
  assert (n1 = 0) as ->.
  { destruct Htb as [-> | ->]; unfold mark_segments in Hm;
      simplify_eq; apply (f_equal length) in H; rewrite !length_app in H;
      cbn [length] in H; lia. }
  destruct tail; [|done].
  rewrite Hm, length_take. cbn [replicate]. rewrite !app_nil_r.
  do 2 f_equal. lia.
Qed.

(** X14: without augmentation, with a second text that gives tokens, and
    with [max_seq_length >= 3], the token stream holds the first [kept_a]
    tokens of the first text and the first [kept_b] of the second, for the
    budget [max_seq_length - 3]; when [kept_b] is 0 the second segment
    and its separator are left out altogether. *)
Theorem assemble_pair_keeps_prefixes inp g (tb : string) :
  let tokens_a := tokenize (tokenizer inp) (text_a (example inp)) in
  permute_ngrams inp = None →
  (3 ≤ max_seq_length inp)%Z →
  text_b (example inp) = Some tb → tb ≠ EmptyString →
  tokenize (tokenizer inp) tb ≠ [] →
  let tokens_b := tokenize (tokenizer inp) tb in
  let ka := kept_a (length tokens_a) (length tokens_b)
              (max_seq_length inp - 3) in
  let kb := kept_b (length tokens_a) (length tokens_b)
              (max_seq_length inp - 3) in
  ∃ segs,
    assemble inp g =
      Ret (["[CLS]"%string] ++ take ka tokens_a ++ ["[SEP]"%string]
             ++ (if decide (kb = 0) then []
                 else take kb tokens_b ++ ["[SEP]"%string]),
           segs, g) ∧
    length segs = ka + 2 + (if decide (kb = 0) then 0 else kb + 1).
Proof.
  intros tokens_a Hnull HL Hb Hne Htok tokens_b ka kb.
  rewrite assemble_null_first by done. fold tokens_a.
  assert (tokenize_text_b inp g = Ret (Some tokens_b, g)) as ->.
  { unfold tokenize_text_b. rewrite Hb, Hnull. by destruct tb. }
  assert (truncate_tokens (max_seq_length inp) tokens_a (Some tokens_b)
          = Ret (take ka tokens_a, Some (take kb tokens_b))) as Htr.
  { unfold truncate_tokens. destruct tokens_b as [|t tokens_b'] eqn:Htb;
      [done|].
    by rewrite truncate_seq_pair_kept by lia. }
  cbn beta iota zeta. cbv [mbind outcome_bind]. rewrite Htr.
  destruct (kept_le (length tokens_a) (length tokens_b)
              (max_seq_length inp - 3)) as [Hka Hkb].
  fold ka in Hka. fold kb in Hkb.
  unfold mark_segments.
  destruct (decide (kb = 0)) as [Hkb0|Hkb0].
  - rewrite Hkb0. cbn [take]. eexists. split; [by rewrite app_nil_r|].
    rewrite !length_app, length_fmap, length_take. cbn [length]. lia.
  - destruct (take kb tokens_b) as [|t' tl] eqn:Htake.
    { apply (f_equal length) in Htake. rewrite length_take in Htake.
      cbn [length] in Htake. lia. }
    eexists. split; [by rewrite <-!app_assoc|].
    rewrite <-Htake, !length_app, !length_fmap, !length_take.
    cbn [length]. lia.
Qed.


Lemma assemble_single_sequence_keeps_prefix_witness :
  assemble
    (task 0 two_words ["false"; "true"]%string 3 word_tokenizer false None) []
    = Ret (["[CLS]"; "a"; "[SEP]"]%string, [0; 0; 0]%Z, []).
Proof.
  apply (assemble_single_sequence_keeps_prefix
           (task 0 two_words ["false"; "true"]%string 3 word_tokenizer
              false None) []).
  - reflexivity.
  - simpl. lia.
  - intros tb Htb. discriminate Htb.
Defined.

Lemma assemble_pair_keeps_prefixes_witness :
  ∃ segs,
    assemble
      (task 0 word_pair ["0"; "1"]%string 8 word_tokenizer false None) []
      = Ret (["[CLS]"; "the"; "cat"; "sat"; "[SEP]"; "a"; "dog"; "[SEP]"]%string,
             segs, []) ∧
    length segs = 8.
Proof.
  apply (assemble_pair_keeps_prefixes
           (task 0 word_pair ["0"; "1"]%string 8 word_tokenizer false None)
           [] "a dog ran").
  - reflexivity.
  - simpl. lia.
  - reflexivity.
  - discriminate.
  - discriminate.
Defined.

(** ** The tab-separated sources *)

(** The loop over the rows, for a body that returns on rows of at least
    [n] columns and raises [IndexError] on shorter ones. *)
Lemma rows_loop_table (skip : bool)
    (make : nat → list string → outcome InputExample) (n : nat)
    (P : nat → list string → InputExample → Prop) i lines acc :
  (skip = false ∨ 0 < i) →
  (∀ j line, n ≤ length line → ∃ ex, make j line = Ret ex ∧ P j line ex) →
  (∀ j line, length line < n → make j line = Raise IndexError) →
  (Forall (λ line, n ≤ length line) lines →
   ∃ exs,
     rows_loop skip make i lines acc = Ret (acc ++ exs) ∧
     length exs = length lines ∧
     ∀ k line, lines !! k = Some line →
       ∃ ex, exs !! k = Some ex ∧ P (i + k) line ex) ∧
  (Exists (λ line, length line < n) lines →
   rows_loop skip make i lines acc = Raise IndexError).
Proof.
  intros Hi Hok Hshort. revert i acc Hi.
  induction lines as [|line lines IH]; intros i acc Hi.
  - split.
    + intros _. exists []. cbn. rewrite app_nil_r. split_and!; [done..|].
      intros k line Hk. by rewrite lookup_nil in Hk.
    + by intros ?%Exists_nil.
  - cbn [rows_loop].
    assert (skip && (i =? 0) = false) as ->.
    { destruct Hi as [->|Hi]; [done|].
      apply andb_false_intro2. apply Nat.eqb_neq. lia. }
    destruct (IH (S i)) with (acc := acc) as [_ IHshort]; [right; lia|].
    split.
    + intros [Hline Hrest]%Forall_cons.
      destruct (Hok i line Hline) as (ex & -> & HP). cbn.
      destruct (IH (S i) (acc ++ [ex])) as [IHok _]; [right; lia|].
      destruct (IHok Hrest) as (exs & -> & Hlen & Hall).
      exists (ex :: exs). rewrite <-app_assoc. split_and!; [done|cbn; lia|].
      intros [|k] row Hrow; cbn in Hrow.
      * simplify_eq. exists ex. by rewrite Nat.add_0_r.
      * destruct (Hall k row Hrow) as (ex' & Hex' & HP').
        exists ex'. split; [done|]. by replace (i + S k) with (S i + k) by lia.
    + intros Hex. destruct (decide (n ≤ length line)) as [Hline|Hline].
      * destruct (Hok i line Hline) as (ex & -> & HP). cbn.
        destruct (IH (S i) (acc ++ [ex])) as [_ IHs]; [right; lia|].
        apply IHs. apply Exists_cons in Hex as [?|?]; [lia|done].
      * rewrite Hshort by lia. done.
Qed.

Lemma rows_loop_skips_header make line lines :
  rows_loop true make 0 (line :: lines) [] = rows_loop true make 1 lines [].
Proof. done. Qed.

Lemma index_Some {A} (l : list A) i x : l !! i = Some x → index l i = Ret x.
Proof. unfold index. by intros ->. Qed.

Lemma index_short {A} (l : list A) i :
  length l ≤ i → index l i = Raise IndexError.
Proof. intros H. unfold index. by rewrite lookup_ge_None_2. Qed.

Lemma mrpc_make_example_ok set_type j line :
  5 ≤ length line →
  ∃ ex, MrpcProcessor.make_example set_type j line = Ret ex ∧
        guid ex = format_guid set_type (pretty j) ∧
        line !! 3 = Some (text_a ex) ∧
        line !! 4 = text_b ex ∧
        line !! 0 = label ex.
Proof.
  intros Hlen. unfold MrpcProcessor.make_example.
  destruct (lookup_lt_is_Some_2 line 3) as [a Ha]; [lia|].
  destruct (lookup_lt_is_Some_2 line 4) as [b Hb]; [lia|].
  destruct (lookup_lt_is_Some_2 line 0) as [l Hl]; [lia|].
  rewrite (index_Some _ _ _ Ha), (index_Some _ _ _ Hb), (index_Some _ _ _ Hl).
  eexists. split; [done|]. by cbn.
Qed.

Lemma mrpc_make_example_short set_type j line :
  length line < 5 →
  MrpcProcessor.make_example set_type j line = Raise IndexError.
Proof.
  intros Hlen. unfold MrpcProcessor.make_example.
  destruct (decide (length line ≤ 3)) as [?|?].
  - by rewrite (index_short line 3).
  - destruct (lookup_lt_is_Some_2 line 3) as [a Ha]; [lia|].
    rewrite (index_Some _ _ _ Ha). cbn.
    by rewrite (index_short line 4) by lia.
Qed.

(** X17: [MrpcProcessor._create_examples] leaves out the first row,
    whatever it holds.  When every later row has at least five columns it
    returns one example per later row, in order, with the row number in
    the guid, column 3 as [text_a], column 4 as [text_b] and column 0 as
    the label; when a later row is shorter it raises [IndexError]. *)
Theorem mrpc_create_examples_rows lines set_type :
  (Forall (λ line, 5 ≤ length line) (tail lines) →
   ∃ exs,
     MrpcProcessor._create_examples lines set_type = Ret exs ∧
     length exs = length lines - 1 ∧
     ∀ k line, lines !! S k = Some line →
       ∃ ex, exs !! k = Some ex ∧
             guid ex = format_guid set_type (pretty (S k)) ∧
             line !! 3 = Some (text_a ex) ∧
             line !! 4 = text_b ex ∧
             line !! 0 = label ex) ∧
  (Exists (λ line, length line < 5) (tail lines) →
   MrpcProcessor._create_examples lines set_type = Raise IndexError).
Proof.
  unfold MrpcProcessor._create_examples. destruct lines as [|header lines].
  - split; [|by intros ?%Exists_nil].
    intros _. exists []. split_and!; [done..|].
    intros k line Hk. by rewrite lookup_nil in Hk.
  - rewrite rows_loop_skips_header. cbn [tail length].
    destruct (rows_loop_table true (MrpcProcessor.make_example set_type) 5
                (λ j line ex,
                   guid ex = format_guid set_type (pretty j) ∧
                   line !! 3 = Some (text_a ex) ∧
                   line !! 4 = text_b ex ∧
                   line !! 0 = label ex) 1 lines [])
      as [Hok Hshort].
    { right. lia. }
    { intros j line. apply mrpc_make_example_ok. }
    { intros j line. apply mrpc_make_example_short. }
    split; [|done].
    intros Hall. destruct (Hok Hall) as (exs & -> & Hlen & Hrows).
    exists exs. split_and!; [done|lia|].
    intros k line Hk. cbn in Hk. by apply Hrows.
Qed.

Lemma cola_make_example_ok set_type j line :
  4 ≤ length line →
  ∃ ex, ColaProcessor.make_example set_type j line = Ret ex ∧
        guid ex = format_guid set_type (pretty j) ∧
        line !! 3 = Some (text_a ex) ∧
        text_b ex = None ∧
        line !! 1 = label ex.
Proof.
  intros Hlen. unfold ColaProcessor.make_example.
  destruct (lookup_lt_is_Some_2 line 3) as [a Ha]; [lia|].
  destruct (lookup_lt_is_Some_2 line 1) as [l Hl]; [lia|].
  rewrite (index_Some _ _ _ Ha), (index_Some _ _ _ Hl).
  eexists. split; [done|]. by cbn.
Qed.

Lemma cola_make_example_short set_type j line :
  length line < 4 →
  ColaProcessor.make_example set_type j line = Raise IndexError.
Proof.
  intros Hlen. unfold ColaProcessor.make_example.
  by rewrite (index_short line 3) by lia.
Qed.

(** X18: [ColaProcessor._create_examples] keeps the first row.  When
    every row has at least four columns it returns one example per row,
    in order, with the row number in the guid, column 3 as [text_a], no
    [text_b] and column 1 as the label; when a row is shorter it raises
    [IndexError]. *)
Theorem cola_create_examples_rows lines set_type :
  (Forall (λ line, 4 ≤ length line) lines →
   ∃ exs,
     ColaProcessor._create_examples lines set_type = Ret exs ∧
     length exs = length lines ∧
     ∀ k line, lines !! k = Some line →
       ∃ ex, exs !! k = Some ex ∧
             guid ex = format_guid set_type (pretty k) ∧
             line !! 3 = Some (text_a ex) ∧
             text_b ex = None ∧
             line !! 1 = label ex) ∧
  (Exists (λ line, length line < 4) lines →
   ColaProcessor._create_examples lines set_type = Raise IndexError).
Proof.
  unfold ColaProcessor._create_examples.
  destruct (rows_loop_table false (ColaProcessor.make_example set_type) 4
              (λ j line ex,
                 guid ex = format_guid set_type (pretty j) ∧
                 line !! 3 = Some (text_a ex) ∧
                 text_b ex = None ∧
                 line !! 1 = label ex) 0 lines [])
    as [Hok Hshort].
  { by left. }
  { intros j line. apply cola_make_example_ok. }
  { intros j line. apply cola_make_example_short. }
  split; [|done].
  intros Hall. destruct (Hok Hall) as (exs & -> & Hlen & Hrows).
  by exists exs.
Qed.

Lemma mnli_make_example_ok set_type j line :
  10 ≤ length line →
  ∃ ex, MnliProcessor.make_example set_type j line = Ret ex ∧
        (∃ id, line !! 0 = Some id ∧ guid ex = format_guid set_type id) ∧
        line !! 8 = Some (text_a ex) ∧
        line !! 9 = text_b ex ∧
        last line = label ex.
Proof.
  intros Hlen. unfold MnliProcessor.make_example, last_item.
  destruct (lookup_lt_is_Some_2 line 0) as [id Hid]; [lia|].
  destruct (lookup_lt_is_Some_2 line 8) as [a Ha]; [lia|].
  destruct (lookup_lt_is_Some_2 line 9) as [b Hb]; [lia|].
  destruct (last line) as [l|] eqn:Hl.
  - rewrite (index_Some _ _ _ Hid), (index_Some _ _ _ Ha),
      (index_Some _ _ _ Hb).
    eexists. split; [done|]. cbn. split_and!; [|done..]. by exists id.
  - apply last_None in Hl. subst line. cbn in Hlen. lia.
Qed.

Lemma mnli_make_example_short set_type j line :
  length line < 10 →
  MnliProcessor.make_example set_type j line = Raise IndexError.
Proof.
  intros Hlen. unfold MnliProcessor.make_example.
  destruct (decide (length line ≤ 0)) as [?|?].
  { by rewrite (index_short line 0). }
  destruct (lookup_lt_is_Some_2 line 0) as [id Hid]; [lia|].
  rewrite (index_Some _ _ _ Hid). cbn.
  destruct (decide (length line ≤ 8)) as [?|?].
  { by rewrite (index_short line 8). }
  destruct (lookup_lt_is_Some_2 line 8) as [a Ha]; [lia|].
  rewrite (index_Some _ _ _ Ha). cbn.
  by rewrite (index_short line 9) by lia.
Qed.

(** X19: [MnliProcessor._create_examples] leaves out the first row.  When
    every later row has at least ten columns it returns one example per
    later row, in order, with column 0 in the guid, column 8 as [text_a],
    column 9 as [text_b] and the last column, wherever it is, as the
    label; when a later row is shorter it raises [IndexError]. *)
Theorem mnli_create_examples_rows lines set_type :
  (Forall (λ line, 10 ≤ length line) (tail lines) →
   ∃ exs,
     MnliProcessor._create_examples lines set_type = Ret exs ∧
     length exs = length lines - 1 ∧
     ∀ k line, lines !! S k = Some line →
       ∃ ex, exs !! k = Some ex ∧
             (∃ id, line !! 0 = Some id ∧
                    guid ex = format_guid set_type id) ∧
             line !! 8 = Some (text_a ex) ∧
             line !! 9 = text_b ex ∧
             last line = label ex) ∧
  (Exists (λ line, length line < 10) (tail lines) →
   MnliProcessor._create_examples lines set_type = Raise IndexError).
Proof.
  unfold MnliProcessor._create_examples. destruct lines as [|header lines].
  - split; [|by intros ?%Exists_nil].
    intros _. exists []. split_and!; [done..|].
    intros k line Hk. by rewrite lookup_nil in Hk.
  - rewrite rows_loop_skips_header. cbn [tail length].
    destruct (rows_loop_table true (MnliProcessor.make_example set_type) 10
                (λ j line ex,
                   (∃ id, line !! 0 = Some id ∧
                          guid ex = format_guid set_type id) ∧
                   line !! 8 = Some (text_a ex) ∧
                   line !! 9 = text_b ex ∧
                   last line = label ex) 1 lines [])
      as [Hok Hshort].
    { right. lia. }
    { intros j line. apply mnli_make_example_ok. }
    { intros j line. apply mnli_make_example_short. }
    split; [|done].
    intros Hall. destruct (Hok Hall) as (exs & -> & Hlen & Hrows).
    exists exs. split_and!; [done|lia|].
    intros k line Hk. cbn in Hk. by apply Hrows.
Qed.

Lemma mrpc_create_examples_rows_witness :
  (∃ exs,
     MrpcProcessor._create_examples mrpc_rows "dev" = Ret exs ∧
     length exs = length mrpc_rows - 1 ∧
     ∀ k line, mrpc_rows !! S k = Some line →
       ∃ ex, exs !! k = Some ex ∧
             guid ex = format_guid "dev" (pretty (S k)) ∧
             line !! 3 = Some (text_a ex) ∧
             line !! 4 = text_b ex ∧
             line !! 0 = label ex) ∧
  MrpcProcessor._create_examples mrpc_short_rows "dev" = Raise IndexError.
Proof.
  split.
  - apply (proj1 (mrpc_create_examples_rows mrpc_rows "dev")).
    apply (bool_decide_unpack _). vm_compute. exact I.
  - apply (proj2 (mrpc_create_examples_rows mrpc_short_rows "dev")).
    apply (bool_decide_unpack _). vm_compute. exact I.
Defined.

Lemma cola_create_examples_rows_witness :
  (∃ exs,
     ColaProcessor._create_examples mrpc_short_rows "train" = Ret exs ∧
     length exs = length mrpc_short_rows ∧
     ∀ k line, mrpc_short_rows !! k = Some line →
       ∃ ex, exs !! k = Some ex ∧
             guid ex = format_guid "train" (pretty k) ∧
             line !! 3 = Some (text_a ex) ∧
             text_b ex = None ∧
             line !! 1 = label ex) ∧
  ColaProcessor._create_examples [["gj04"; "1"; ""]]%string "train"
    = Raise IndexError.
Proof.
  split.
  - apply (proj1 (cola_create_examples_rows mrpc_short_rows "train")).
    apply (bool_decide_unpack _). vm_compute. exact I.
  - apply (proj2 (cola_create_examples_rows
                    [["gj04"; "1"; ""]]%string "train")).
    apply (bool_decide_unpack _). vm_compute. exact I.
Defined.

Lemma mnli_create_examples_rows_witness :
  (∃ exs,
     MnliProcessor._create_examples
       [[];
        ["7"; "b"; "c"; "d"; "e"; "f"; "g"; "h"; "prem"; "hyp"; "x";
         "neutral"]]%string "dev_matched" = Ret exs ∧
     length exs =
       length
         [[];
          ["7"; "b"; "c"; "d"; "e"; "f"; "g"; "h"; "prem"; "hyp"; "x";
           "neutral"]]%string - 1 ∧
     ∀ k line,
       [[];
        ["7"; "b"; "c"; "d"; "e"; "f"; "g"; "h"; "prem"; "hyp"; "x";
         "neutral"]]%string !! S k = Some line →
       ∃ ex, exs !! k = Some ex ∧
             (∃ id, line !! 0 = Some id ∧
                    guid ex = format_guid "dev_matched" id) ∧
             line !! 8 = Some (text_a ex) ∧
             line !! 9 = text_b ex ∧
             last line = label ex) ∧
  MnliProcessor._create_examples mrpc_rows "dev_matched" = Raise IndexError.
Proof.
  split.
  - apply (proj1 (mnli_create_examples_rows
                    [[];
                     ["7"; "b"; "c"; "d"; "e"; "f"; "g"; "h"; "prem"; "hyp";
                      "x"; "neutral"]]%string "dev_matched")).
    apply (bool_decide_unpack _). vm_compute. exact I.
  - apply (proj2 (mnli_create_examples_rows mrpc_rows "dev_matched")).
    apply (bool_decide_unpack _). vm_compute. exact I.
Defined.

(** ** SemevalProcessor: the split in the order [main] asks for it *)

(** X21: on a fresh processor, [get_train_examples] followed by
    [get_dev_examples] cut the sequence of examples in two: the train
    split and then the dev split make up the whole sequence, the train
    split holds [floor(0.8 N)] examples, and with at least one example the
    dev split is not empty.  Further [get_dev_examples] calls return the
    same dev split. *)
Theorem semeval_train_then_dev_partition (d : SemevalProcessor.data_dir) :
  let ex := SemevalProcessor._create_examples d in
  ∃ train dev,
    SemevalProcessor.run_calls
      [SemevalProcessor.Train; SemevalProcessor.Dev; SemevalProcessor.Dev]
      SemevalProcessor.init d
      = [(SemevalProcessor.Train, train); (SemevalProcessor.Dev, dev);
         (SemevalProcessor.Dev, dev)] ∧
    train ++ dev = ex ∧
    length train = 4 * length ex / 5 ∧
    (ex ≠ [] → dev ≠ []).
Proof.
  intros ex.
  exists (take (4 * length ex / 5) ex), (drop (4 * length ex / 5) ex).
  split_and!.
  - unfold SemevalProcessor.run_calls, SemevalProcessor.do_call.
    rewrite get_train_examples_first. cbn [fst snd].
    rewrite get_dev_examples_cached. cbn [fst snd].
    by rewrite get_dev_examples_cached.
  - apply take_drop.
  - rewrite length_take.
    pose proof (Nat.Div0.div_le_upper_bound (4 * length ex) 5 (length ex)).
    lia.
  - intros Hne Hnil. apply (f_equal length) in Hnil.
    rewrite length_drop in Hnil. cbn [length] in Hnil.
    assert (0 < length ex) by (destruct ex; [done|simpl; lia]).
    pose proof (floor_0_8_lt (length ex)). lia.
Qed.

Lemma semeval_train_then_dev_partition_witness :
  ∃ train dev,
    SemevalProcessor.run_calls
      [SemevalProcessor.Train; SemevalProcessor.Dev; SemevalProcessor.Dev]
      SemevalProcessor.init SemevalProcessor.five_articles
      = [(SemevalProcessor.Train, train); (SemevalProcessor.Dev, dev);
         (SemevalProcessor.Dev, dev)] ∧
    train ++ dev
      = SemevalProcessor._create_examples SemevalProcessor.five_articles ∧
    length train = 4 ∧
    dev ≠ [].
Proof.
  destruct (semeval_train_then_dev_partition SemevalProcessor.five_articles)
    as (train & dev & Hrun & Happ & Hlen & Hdev).
  exists train, dev. split_and!; [exact Hrun|exact Happ|exact Hlen|].
  apply Hdev. discriminate.
Defined.

(** ** A source in the wrong mode *)

Lemma construct_features_no_label_key_error inp g :
  predict inp = false →
  (3 ≤ max_seq_length inp)%Z →
  (∀ w, permute_ngrams inp = Some w → (1 ≤ w)%Z) →
  (∀ ts, length (convert_tokens_to_ids (tokenizer inp) ts) = length ts) →
  label (example inp) = None →
  construct_features inp g = Raise KeyError.
Proof.
  intros Hpred HL Hpn Hids Hlab.
  destruct (construct_features_tail inp g) as (ids & mask & segs & g' & ->);
    [done..|].
  rewrite Hpred. unfold lookup_label. by rewrite Hlab.
Qed.

Lemma construct_features_no_hyphen_index_error inp g :
  predict inp = true →
  (3 ≤ max_seq_length inp)%Z →
  (∀ w, permute_ngrams inp = Some w → (1 ≤ w)%Z) →
  (∀ ts, length (convert_tokens_to_ids (tokenizer inp) ts) = length ts) →
  contains "-" (guid (example inp)) = false →
  construct_features inp g = Raise IndexError.
Proof.
  intros Hpred HL Hpn Hids Hno.
  destruct (construct_features_tail inp g) as (ids & mask & segs & g' & ->);
    [done..|].
  rewrite Hpred. by rewrite split_no_sep.
Qed.

Lemma pool_imap_first_raises {T R : Type} (p : pool)
    (f : T → rng → outcome (R * rng)) t tasks i st e :
  f t (st (worker_of p i)) = Raise e →
  pool_imap p f (t :: tasks) i st = Raise e.
Proof. intros H. cbn [pool_imap]. by rewrite H. Qed.

(** X23: converting the examples of the inference source in training
    mode raises [KeyError] as soon as there is one article: its examples
    have no label.  (With room for the markers, a width that is null or at
    least 1 and one id per token, so that the arrays are built.) *)
Theorem convert_inference_source_in_training_mode_raises
    p articles label_list L tk pn :
  articles ≠ [] →
  (3 ≤ L)%Z →
  (∀ w, pn = Some w → (1 ≤ w)%Z) →
  (∀ ts, length (convert_tokens_to_ids tk ts) = length ts) →
  convert_examples_to_features p
    (SemevalOfficialProcessor.get_dev_examples articles)
    label_list L tk false pn
    = Raise KeyError.
Proof.
  intros Hne HL Hpn Hids. destruct articles as [|a articles]; [done|].
  unfold convert_examples_to_features,
    SemevalOfficialProcessor.get_dev_examples,
    SemevalOfficialProcessor._create_examples.
  cbn [fmap list_fmap imap].
  apply pool_imap_first_raises.
  by apply construct_features_no_label_key_error.
Qed.

Lemma semeval_guid_no_hyphen d ex :
  ex ∈ SemevalProcessor._create_examples d → contains "-" (guid ex) = false.
Proof.
  unfold SemevalProcessor._create_examples.
  intros (i & lines & -> & _)%elem_of_lookup_imap.
  apply pretty_nat_no_hyphen.
Qed.

(** X24: converting the dev split of [SemevalProcessor] in inference mode
    raises [IndexError] as soon as there is one example: its guids are
    line numbers, without the hyphen the record id is cut at.  (With room
    for the markers, a width that is null or at least 1 and one id per
    token, so that the arrays are built.) *)
Theorem convert_semeval_dev_split_in_inference_mode_raises
    p d label_list L tk pn :
  SemevalProcessor._create_examples d ≠ [] →
  (3 ≤ L)%Z →
  (∀ w, pn = Some w → (1 ≤ w)%Z) →
  (∀ ts, length (convert_tokens_to_ids tk ts) = length ts) →
  convert_examples_to_features p
    (SemevalProcessor.get_dev_examples SemevalProcessor.init d).1
    label_list L tk true pn
    = Raise IndexError.
Proof.
  intros Hne HL Hpn Hids. rewrite get_dev_examples_first. cbn [fst].
  set (k := 4 * length (SemevalProcessor._create_examples d) / 5).
  destruct (drop k (SemevalProcessor._create_examples d)) as [|ex dev]
    eqn:Hdev.
  { apply (f_equal length) in Hdev. rewrite length_drop in Hdev.
    cbn [length] in Hdev.
    assert (0 < length (SemevalProcessor._create_examples d)).
    { destruct (SemevalProcessor._create_examples d); [done|simpl; lia]. }
    pose proof (floor_0_8_lt (length (SemevalProcessor._create_examples d))).
    lia. }
  unfold convert_examples_to_features. cbn [imap].
  apply pool_imap_first_raises.
  apply construct_features_no_hyphen_index_error; [done..|].
  cbn [example]. apply (semeval_guid_no_hyphen d).
  apply (subseteq_drop k). rewrite Hdev. by left.
Qed.

Lemma convert_inference_source_in_training_mode_raises_witness :
  convert_examples_to_features (two_workers [] [])
    (SemevalOfficialProcessor.get_dev_examples [plain_article; hyphen_article])
    ["false"; "true"]%string 8 word_tokenizer false None
    = Raise KeyError.
Proof.
  apply (convert_inference_source_in_training_mode_raises
           (two_workers [] []) [plain_article; hyphen_article]
           ["false"; "true"]%string 8 word_tokenizer None).
  - discriminate.
  - lia.
  - intros w Hw. discriminate Hw.
  - intros ts. apply length_fmap.
Defined.

Lemma convert_semeval_dev_split_in_inference_mode_raises_witness :
  convert_examples_to_features (two_workers [] [])
    (SemevalProcessor.get_dev_examples SemevalProcessor.init
       SemevalProcessor.five_articles).1
    ["false"; "true"]%string 8 word_tokenizer true None
    = Raise IndexError.
Proof.
  apply (convert_semeval_dev_split_in_inference_mode_raises
           (two_workers [] []) SemevalProcessor.five_articles
           ["false"; "true"]%string 8 word_tokenizer None).
  - discriminate.
  - lia.
  - intros w Hw. discriminate Hw.
  - intros ts. apply length_fmap.
Defined.
